(** * relay/oauth2: the access-token cache and its fetcher

    A shallow embedding of [src/relay/oauth2/main.go].

    - Go strings are byte strings: [string].
    - [time.Time] instants are integers (nanoseconds on the monotonic
      clock, which is what [Before] compares for readings of [time.Now]);
      [time.Duration] is a number of nanoseconds.
    - [map[string]*AccessToken] is a [gmap string AccessToken]: the only
      pointers ever stored are the freshly allocated, never mutated
      results of [generateAccessToken], so the pointee stands for the
      pointer.
    - The outside world (clock, URL parser, HTTP transport, body reader,
      JSON decoder) is a record of oracles over an abstract state; the
      program threads that state through a small state monad which also
      keeps a ghost trace of the calls made. *)

From Stdlib Require Import ZArith NArith Ascii String List Lia.
From stdpp Require Import base option gmap strings list.

Local Open Scope string_scope.
Local Open Scope list_scope.
Local Open Scope Z_scope.

(** ** encoding/base64: [StdEncoding.EncodeToString] *)

Module base64.

Definition encodeStd : string :=
  "ABCDEFGHIJKLMNOPQRSTUVWXYZabcdefghijklmnopqrstuvwxyz0123456789+/".

Definition StdPadding : ascii := "="%char.

(** [enc.encode[i]] for a 6-bit index. *)
Definition encode (i : N) : ascii :=
  match String.get (N.to_nat i) encodeStd with
  | Some c => c
  | None => StdPadding
  end.

Definition sextet (val : N) (shift : N) : ascii :=
  encode (N.land (N.shiftr val shift) 63).

(** The loop of [Encoding.Encode] over whole 3-byte groups, followed by
    the padded tail for one or two remaining bytes. *)
Fixpoint EncodeToString (src : string) : string :=
  match src with
  | EmptyString => EmptyString
  | String a EmptyString =>
      let val := N.shiftl (N_of_ascii a) 16 in
      String (sextet val 18) (String (sextet val 12)
        (String StdPadding (String StdPadding EmptyString)))
  | String a (String b EmptyString) =>
      let val := N.lor (N.shiftl (N_of_ascii a) 16) (N.shiftl (N_of_ascii b) 8) in
      String (sextet val 18) (String (sextet val 12)
        (String (sextet val 6) (String StdPadding EmptyString)))
  | String a (String b (String c rest)) =>
      let val := N.lor (N.lor (N.shiftl (N_of_ascii a) 16) (N.shiftl (N_of_ascii b) 8))
                       (N_of_ascii c) in
      String (sextet val 18) (String (sextet val 12)
        (String (sextet val 6) (String (sextet val 0) (EncodeToString rest))))
  end.

End base64.

(** ** package time *)

Definition Time := Z.
Definition Duration := Z.

Module time.
Definition Nanosecond : Duration := 1.
Definition Microsecond : Duration := 1000 * Nanosecond.
Definition Millisecond : Duration := 1000 * Microsecond.
Definition Second : Duration := 1000 * Millisecond.
Definition Minute : Duration := 60 * Second.
Definition Hour : Duration := 60 * Minute.

Definition Add (t : Time) (d : Duration) : Time := t + d.
Definition Before (t u : Time) : bool := t <? u.
End time.

(** ** The data of package oauth2 *)

(** [type AccessToken struct] *)
Record AccessToken := mkAccessToken {
  Value : string;
  ExpiresAt : Time
}.

(** [type AccessTokenResponse struct], the shape [json.Unmarshal] fills.
    It lives in a module of its own because its first field has the name
    of the struct above. *)
Module AccessTokenResponse.
Record t := mk {
  AccessToken : string;   (* `json:"access_token"` *)
  TokenType : string;     (* `json:"token_type"` *)
  ExpiresIn : Z;          (* `json:"expires_in"` *)
  Scope : string;         (* `json:"scope"` *)
  Jti : string            (* `json:"jti"` *)
}.
End AccessTokenResponse.

(** [type AccessTokenManager struct]: the cache.  The [mutex] field has no
    content of its own in a sequential run (it is taken on entry and
    released on return); it is explicit in [Module Concurrent]. *)
Record AccessTokenManager := mkAccessTokenManager {
  tokenCache : gmap string AccessToken
}.

(** [func NewAccessTokenManager() *AccessTokenManager] *)
Definition NewAccessTokenManager : AccessTokenManager :=
  {| tokenCache := ∅ |}.

(** ** net/http values *)

(** [http.Header] is a [map[string][]string]. *)
Definition Header := gmap string (list string).

Definition Header_Set (h : Header) (key value : string) : Header :=
  <[key := [value]]> h.

Definition Header_Get (h : Header) (key : string) : string :=
  match h !! key with
  | Some (v :: _) => v
  | _ => ""
  end.

(** The part of [*http.Request] that [generateAccessToken] decides: the
    three arguments of [http.NewRequest] and the header map. *)
Record Request := mkRequest {
  Method : string;
  URL : string;
  Payload : string;
  Headers : Header
}.

Definition Request_SetHeader (req : Request) (key value : string) : Request :=
  {| Method := Method req; URL := URL req; Payload := Payload req;
     Headers := Header_Set (Headers req) key value |}.

(** [*http.Response]: the status code and the body stream. *)
Record Response (Stream : Type) := mkResponse {
  StatusCode : Z;
  Body : Stream
}.
Arguments mkResponse {Stream} _ _.
Arguments StatusCode {Stream} _.
Arguments Body {Stream} _.

(** A Go [(T, error)] result of a call that returns either a value or a
    non-nil error. *)
Inductive result (error A : Type) : Type :=
| Ok (a : A)
| Err (err : error).
Arguments Ok {error A} _.
Arguments Err {error A} _.

(** ** The outside world *)

(** What the package calls but does not define.  [Ext] is the state of
    everything outside the process (clock, network, server); every oracle
    that takes time or talks to the network returns the state it leaves
    behind. *)
Class Platform (Ext error Stream : Type) := {
  (** [time.Now()] *)
  env_Now : Ext -> Time * Ext;
  (** the verdict of [url.Parse] inside [http.NewRequest]: the only way
      [NewRequest] fails for the method "POST" and a [strings.Reader] *)
  env_ParseURL : string -> option error;
  (** [(&http.Client{}).Do(req)] *)
  env_Do : Request -> Ext -> result error (Response Stream) * Ext;
  (** [ioutil.ReadAll(resp.Body)] *)
  env_ReadAll : Stream -> Ext -> result error string * Ext;
  (** [resp.Body.Close()] *)
  env_Close : Stream -> Ext -> Ext;
  (** [json.Unmarshal(body, &tokenResp)] on a zero [tokenResp] *)
  env_Unmarshal : string -> result error AccessTokenResponse.t
}.

(** The same world seen through a proxy that rewrites the status code of
    every response. *)
Definition with_status {Ext error Stream} (f : Z -> Z)
    (P : Platform Ext error Stream) : Platform Ext error Stream :=
  {| env_Now := env_Now;
     env_ParseURL := env_ParseURL;
     env_Do := fun req e =>
       let (r, e') := env_Do req e in
       (match r with
        | Ok resp => Ok (mkResponse (f (StatusCode resp)) (Body resp))
        | Err err => Err err
        end, e');
     env_ReadAll := env_ReadAll;
     env_Close := env_Close;
     env_Unmarshal := env_Unmarshal |}.

(** The same world with a server that reports another [expires_in]. *)
Definition with_expires_in {Ext error Stream} (f : Z -> Z)
    (P : Platform Ext error Stream) : Platform Ext error Stream :=
  {| env_Now := env_Now;
     env_ParseURL := env_ParseURL;
     env_Do := env_Do;
     env_ReadAll := env_ReadAll;
     env_Close := env_Close;
     env_Unmarshal := fun body =>
       match env_Unmarshal body with
       | Ok t =>
           Ok (AccessTokenResponse.mk
                 (AccessTokenResponse.AccessToken t) (AccessTokenResponse.TokenType t)
                 (f (AccessTokenResponse.ExpiresIn t))
                 (AccessTokenResponse.Scope t) (AccessTokenResponse.Jti t))
       | Err err => Err err
       end |}.

(** Ghost events, in the order they happen.  They record what the
    program does, not what the world makes of it: [EvSend req] is the
    call [client.Do(req)], with the request the program hands over.
    Whether the client then fails before it sends anything, sends that
    request, adds headers of its own or follows a redirect with further
    requests is part of the answer of [env_Do] and leaves no event. *)
Inductive Event :=
| EvFetch (clientID clientSecret uaaUrl : string)  (* generateAccessToken entered *)
| EvSend (req : Request)                           (* client.Do(req) called *)
| EvNow (t : Time).                                (* time.Now() returned t *)

Record World (Ext : Type) := mkWorld {
  ext : Ext;
  trace : list Event
}.
Arguments mkWorld {Ext} _ _.
Arguments ext {Ext} _.
Arguments trace {Ext} _.

Definition is_fetch (e : Event) : bool :=
  match e with EvFetch _ _ _ => true | _ => false end.

(** Number of calls of [generateAccessToken] recorded. *)
Definition fetches (l : list Event) : nat := length (filter is_fetch l).

(** The requests handed to [client.Do], one for each call of it, oldest
    first (not the HTTP requests the client puts on the wire for them). *)
Definition sent (l : list Event) : list Request :=
  omap (fun e => match e with EvSend r => Some r | _ => None end) l.

(** ** The state monad of the program *)

Definition M (Ext A : Type) : Type := World Ext -> A * World Ext.

Definition ret {Ext A} (a : A) : M Ext A := fun w => (a, w).

Definition bind {Ext A B} (m : M Ext A) (k : A -> M Ext B) : M Ext B :=
  fun w => let (a, w') := m w in k a w'.

Notation "'do' x <- m ;; k" := (bind m (fun x => k))
  (at level 10, x name, m at level 99, k at level 200).

Definition emit {Ext} (e : Event) : M Ext unit :=
  fun w => (tt, {| ext := ext w; trace := trace w ++ [e] |}).

Section Oauth2.

Context {Ext error Stream : Type} `{P : Platform Ext error Stream}.

Abbreviation M := (M Ext).

(** *** The calls into the world *)

Definition time_Now : M Time :=
  fun w => let (t, e) := env_Now (ext w) in
           (t, {| ext := e; trace := trace w ++ [EvNow t] |}).

Definition http_NewRequest (method url body : string) : result error Request :=
  match env_ParseURL url with
  | Some err => Err err
  | None => Ok {| Method := method; URL := url; Payload := body; Headers := ∅ |}
  end.

(** [client.Do(req)]: the call is recorded with its argument; the world
    answers with a response or an error. *)
Definition client_Do (req : Request) : M (result error (Response Stream)) :=
  fun w => let (r, e) := env_Do req (ext w) in
           (r, {| ext := e; trace := trace w ++ [EvSend req] |}).

Definition ioutil_ReadAll (b : Stream) : M (result error string) :=
  fun w => let (r, e) := env_ReadAll b (ext w) in
           (r, {| ext := e; trace := trace w |}).

Definition Body_Close (b : Stream) : M unit :=
  fun w => (tt, {| ext := env_Close b (ext w); trace := trace w |}).

Definition json_Unmarshal (body : string) : result error AccessTokenResponse.t :=
  env_Unmarshal body.

(** *** [func generateAccessToken] (lines 63-100) *)

Definition generateAccessToken (clientID clientSecret uaaUrl : string)
  : M (result error AccessToken) :=
  do _ <- emit (EvFetch clientID clientSecret uaaUrl) ;;
  let url := uaaUrl +:+ "/oauth/token?grant_type=client_credentials" in
  let payload := "" in
  match http_NewRequest "POST" url payload with
  | Err err => ret (Err err)
  | Ok req =>
    let encodedCredential :=
      base64.EncodeToString (clientID +:+ ":" +:+ clientSecret) in
    let authHeader := "Basic " +:+ encodedCredential in
    let req := Request_SetHeader req "Authorization" authHeader in
    do r <- client_Do req ;;
    match r with
    | Err err => ret (Err err)
    | Ok resp =>
      (* defer resp.Body.Close() : runs on each return below *)
      do rb <- ioutil_ReadAll (Body resp) ;;
      match rb with
      | Err err => do _ <- Body_Close (Body resp) ;; ret (Err err)
      | Ok body =>
        match json_Unmarshal body with
        | Err err => do _ <- Body_Close (Body resp) ;; ret (Err err)
        | Ok tokenResp =>
          do now <- time_Now ;;
          let accessToken :=
            {| Value := AccessTokenResponse.AccessToken tokenResp;
               ExpiresAt := time.Add now time.Hour |} in
          do _ <- Body_Close (Body resp) ;;
          ret (Ok accessToken)
        end
      end
    end
  end.

(** *** [func (tm *AccessTokenManager) GetAccessToken] (lines 44-61) *)

(** The condition of the [if] on line 49,
    [token, ok := tm.tokenCache[clientID]; ok && time.Now().Before(token.ExpiresAt)]:
    the cached token when the branch is taken.  [time.Now()] is read
    only when the key is present ([&&] short-circuits). *)
Definition cacheLookup (tm : AccessTokenManager) (clientID : string)
  : M (option AccessToken) :=
  match tokenCache tm !! clientID with
  | Some token =>
      do now <- time_Now ;;
      ret (if time.Before now (ExpiresAt token) then Some token else None)
  | None => ret None
  end.

(** The result is Go's [(string, error)] pair ([None] is [nil]) together
    with the manager as the call leaves it. *)
Definition GetAccessToken (tm : AccessTokenManager)
    (clientID clientSecret uaaUrl : string)
  : M (string * option error * AccessTokenManager) :=
  (* tm.mutex.Lock(); defer tm.mutex.Unlock() *)
  do hit <- cacheLookup tm clientID ;;
  match hit with
  | Some token => ret (Value token, None, tm)
  | None =>
    do r <- generateAccessToken clientID clientSecret uaaUrl ;;
    match r with
    | Err err => ret ("", Some err, tm)
    | Ok newToken =>
      let tm' := {| tokenCache := <[clientID := newToken]> (tokenCache tm) |} in
      ret (Value newToken, None, tm')
    end
  end.

(** One call, in some state of the world, takes the manager from [tm]
    to [tm']. *)
Definition call_step (tm tm' : AccessTokenManager) : Prop :=
  exists clientID clientSecret uaaUrl w,
    (GetAccessToken tm clientID clientSecret uaaUrl w).1.2 = tm'.

(** The manager's lifetime: any number of calls, the world changing
    freely between them. *)
Inductive lifetime : AccessTokenManager -> AccessTokenManager -> Prop :=
| lifetime_refl tm : lifetime tm tm
| lifetime_call tm tm' tm'' :
    lifetime tm tm' -> call_step tm' tm'' -> lifetime tm tm''.

(** The calls that follow each other on a manager while every call for
    [clientID] finds the clock before [deadline]. *)
Inductive calls_before (clientID : string) (deadline : Time)
  : AccessTokenManager -> AccessTokenManager -> Prop :=
| calls_before_refl tm : calls_before clientID deadline tm tm
| calls_before_call tm tm' c clientSecret uaaUrl w :
    calls_before clientID deadline tm tm' ->
    (c = clientID -> (env_Now (ext w)).1 < deadline) ->
    calls_before clientID deadline tm (GetAccessToken tm' c clientSecret uaaUrl w).1.2.

(** The request the specification describes (its section 4.2, steps 1
    and 2), to compare with the one the code builds. *)
Definition tokenRequest (clientID clientSecret endpointURL : string) : Request :=
  {| Method := "POST";
     URL := endpointURL +:+ "/oauth/token?grant_type=client_credentials";
     Payload := "";
     Headers := {[ "Authorization" :=
                    ["Basic " +:+ base64.EncodeToString (clientID +:+ ":" +:+ clientSecret)] ]} |}.

(** The paths through [generateAccessToken], one constructor for each
    [return], with the oracle answers that lead there.  (It is proved
    below to describe exactly what the function computes.) *)
Inductive fetch_path clientID clientSecret uaaUrl w
  : result error AccessToken -> World Ext -> Prop :=
| path_bad_url err :
    env_ParseURL (uaaUrl +:+ "/oauth/token?grant_type=client_credentials") = Some err ->
    fetch_path clientID clientSecret uaaUrl w (Err err)
      {| ext := ext w; trace := trace w ++ [EvFetch clientID clientSecret uaaUrl] |}
| path_transport err e1 :
    env_ParseURL (uaaUrl +:+ "/oauth/token?grant_type=client_credentials") = None ->
    env_Do (tokenRequest clientID clientSecret uaaUrl) (ext w) = (Err err, e1) ->
    fetch_path clientID clientSecret uaaUrl w (Err err)
      {| ext := e1;
         trace := trace w ++ [EvFetch clientID clientSecret uaaUrl;
                              EvSend (tokenRequest clientID clientSecret uaaUrl)] |}
| path_read err resp e1 e2 :
    env_ParseURL (uaaUrl +:+ "/oauth/token?grant_type=client_credentials") = None ->
    env_Do (tokenRequest clientID clientSecret uaaUrl) (ext w) = (Ok resp, e1) ->
    env_ReadAll (Body resp) e1 = (Err err, e2) ->
    fetch_path clientID clientSecret uaaUrl w (Err err)
      {| ext := env_Close (Body resp) e2;
         trace := trace w ++ [EvFetch clientID clientSecret uaaUrl;
                              EvSend (tokenRequest clientID clientSecret uaaUrl)] |}
| path_decode err resp e1 body e2 :
    env_ParseURL (uaaUrl +:+ "/oauth/token?grant_type=client_credentials") = None ->
    env_Do (tokenRequest clientID clientSecret uaaUrl) (ext w) = (Ok resp, e1) ->
    env_ReadAll (Body resp) e1 = (Ok body, e2) ->
    env_Unmarshal body = Err err ->
    fetch_path clientID clientSecret uaaUrl w (Err err)
      {| ext := env_Close (Body resp) e2;
         trace := trace w ++ [EvFetch clientID clientSecret uaaUrl;
                              EvSend (tokenRequest clientID clientSecret uaaUrl)] |}
| path_ok resp e1 body e2 tokenResp T e3 :
    env_ParseURL (uaaUrl +:+ "/oauth/token?grant_type=client_credentials") = None ->
    env_Do (tokenRequest clientID clientSecret uaaUrl) (ext w) = (Ok resp, e1) ->
    env_ReadAll (Body resp) e1 = (Ok body, e2) ->
    env_Unmarshal body = Ok tokenResp ->
    env_Now e2 = (T, e3) ->
    fetch_path clientID clientSecret uaaUrl w
      (Ok {| Value := AccessTokenResponse.AccessToken tokenResp;
             ExpiresAt := T + time.Hour |})
      {| ext := env_Close (Body resp) e3;
         trace := trace w ++ [EvFetch clientID clientSecret uaaUrl;
                              EvSend (tokenRequest clientID clientSecret uaaUrl);
                              EvNow T] |}.

End Oauth2.

(** ** Goroutines calling [GetAccessToken] on one manager

    Each goroutine runs the statements of [GetAccessToken] one at a time,
    and the scheduler interleaves them freely.  [sync.Mutex] is a flag:
    [Lock] returns only when it finds the flag clear and sets it, the
    deferred [Unlock] clears it.  A call of [generateAccessToken] takes
    two steps, entering it and returning from it, so that other
    goroutines may run while the fetch is in flight; its effects on the
    world take place when it returns. *)

Module Concurrent.

Section Goroutines.

Context {Ext error Stream : Type} `{P : Platform Ext error Stream}.

(** Where a goroutine stands in [GetAccessToken]. *)
Inductive Position :=
| AtLock                                   (* line 45: tm.mutex.Lock() *)
| AtLookup                                 (* line 49, lock held *)
| InFetch                                  (* line 54, inside generateAccessToken *)
| Fetched (r : result error AccessToken)   (* line 55, the call has returned *)
| AtUnlock (r : string * option error)     (* return values set, Unlock pending *)
| Done (r : string * option error).        (* returned to the caller *)

Record Goroutine := mkGoroutine {
  clientID : string;
  clientSecret : string;
  uaaUrl : string;
  pc : Position
}.

Definition goto (g : Goroutine) (p : Position) : Goroutine :=
  {| clientID := clientID g; clientSecret := clientSecret g;
     uaaUrl := uaaUrl g; pc := p |}.

Record State := mkState {
  mutex : bool;                      (* tm.mutex: true when locked *)
  manager : AccessTokenManager;      (* tm.tokenCache *)
  world : World Ext;
  pool : list Goroutine
}.

(** One statement of goroutine [i]; [None] when it cannot move (it
    waits for the lock, has returned, or does not exist). *)
Definition thread_step (i : nat) (s : State) : option State :=
  match pool s !! i with
  | None => None
  | Some g =>
    match pc g with
    | AtLock =>
        if mutex s then None
        else Some {| mutex := true; manager := manager s; world := world s;
                     pool := <[i := goto g AtLookup]> (pool s) |}
    | AtLookup =>
        let (hit, w) := cacheLookup (manager s) (clientID g) (world s) in
        match hit with
        | Some token =>
            Some {| mutex := mutex s; manager := manager s; world := w;
                    pool := <[i := goto g (AtUnlock (Value token, None))]> (pool s) |}
        | None =>
            Some {| mutex := mutex s; manager := manager s; world := w;
                    pool := <[i := goto g InFetch]> (pool s) |}
        end
    | InFetch =>
        let (r, w) :=
          generateAccessToken (clientID g) (clientSecret g) (uaaUrl g) (world s) in
        Some {| mutex := mutex s; manager := manager s; world := w;
                pool := <[i := goto g (Fetched r)]> (pool s) |}
    | Fetched (Err err) =>
        Some {| mutex := mutex s; manager := manager s; world := world s;
                pool := <[i := goto g (AtUnlock ("", Some err))]> (pool s) |}
    | Fetched (Ok newToken) =>
        Some {| mutex := mutex s;
                manager :=
                  {| tokenCache := <[clientID g := newToken]> (tokenCache (manager s)) |};
                world := world s;
                pool := <[i := goto g (AtUnlock (Value newToken, None))]> (pool s) |}
    | AtUnlock r =>
        Some {| mutex := false; manager := manager s; world := world s;
                pool := <[i := goto g (Done r)]> (pool s) |}
    | Done _ => None
    end
  end.

(** An execution: the goroutines move in the order of the schedule.  A
    schedule that asks a goroutine to move when it cannot is not an
    execution. *)
Fixpoint run (schedule : list nat) (s : State) : option State :=
  match schedule with
  | [] => Some s
  | i :: rest =>
      match thread_step i s with
      | Some s' => run rest s'
      | None => None
      end
  end.

(** A burst of calls: nobody has the lock, every goroutine is about
    to call [Lock]. *)
Definition start (tm : AccessTokenManager) (w : World Ext)
    (calls : list (string * string * string)) : State :=
  {| mutex := false; manager := tm; world := w;
     pool := (fun c => mkGoroutine c.1.1 c.1.2 c.2 AtLock) <$> calls |}.

Definition fetching (g : Goroutine) : bool :=
  match pc g with InFetch => true | _ => false end.

(** Between [Lock] and [Unlock]. *)
Definition critical (g : Goroutine) : bool :=
  match pc g with
  | AtLookup | InFetch | Fetched _ | AtUnlock _ => true
  | AtLock | Done _ => false
  end.

Definition returned (g : Goroutine) : option (string * option error) :=
  match pc g with Done r => Some r | _ => None end.

Definition args (g : Goroutine) : string * string * string :=
  (clientID g, clientSecret g, uaaUrl g).

(** The return values of a call that has set them. *)
Definition finished (p : Position) : option (string * option error) :=
  match p with AtUnlock r | Done r => Some r | _ => None end.

(** Inside the call, return values not set yet. *)
Definition in_call (p : Position) : bool :=
  match p with AtLookup | InFetch | Fetched _ => true | _ => false end.

(** The calls served one at a time, in the order of the list: the
    return values of each, the manager at the end. *)
Fixpoint serve (tm : AccessTokenManager) (calls : list (string * string * string))
  : M Ext (list (string * option error) * AccessTokenManager) :=
  match calls with
  | [] => ret ([], tm)
  | c :: rest =>
      do r <- GetAccessToken tm c.1.1 c.1.2 c.2 ;;
      do rs <- serve r.2 rest ;;
      ret (r.1 :: rs.1, rs.2)
  end.

(** How far the goroutine inside the call has come, starting from the
    manager [tmk] and the world [wk] that the calls before it left. *)
Definition progress (tmk : AccessTokenManager) (wk : World Ext)
    (s : State) (g : Goroutine) : Prop :=
  match pc g with
  | AtLookup => manager s = tmk /\ world s = wk
  | InFetch =>
      manager s = tmk /\ cacheLookup tmk (clientID g) wk = (None, world s)
  | Fetched r =>
      manager s = tmk /\
      exists w, cacheLookup tmk (clientID g) wk = (None, w) /\
                generateAccessToken (clientID g) (clientSecret g) (uaaUrl g) w =
                  (r, world s)
  | _ => True
  end.

(** A state of an execution from [tm0] and [w0] is explained by
    serving, one at a time and in the order [order], the calls that
    have set their return values. *)
Definition linearized (tm0 : AccessTokenManager) (w0 : World Ext)
    (s : State) (order : list nat) : Prop :=
  exists ordered rs tmk wk,
    NoDup order /\
    (forall i g, pool s !! i = Some g -> is_Some (finished (pc g)) -> i ∈ order) /\
    Forall2 (fun i c => exists g, pool s !! i = Some g /\ args g = c) order ordered /\
    Forall2 (fun i r => exists g, pool s !! i = Some g /\ finished (pc g) = Some r)
            order rs /\
    serve tm0 ordered w0 = ((rs, tmk), wk) /\
    (forall i g, pool s !! i = Some g -> progress tmk wk s g) /\
    ((forall i g, pool s !! i = Some g -> in_call (pc g) = false) ->
     manager s = tmk /\ world s = wk).

(** Mutual exclusion, as a property of the flag and the pool: with the
    flag clear nobody is between [Lock] and [Unlock], and at most one
    goroutine ever is. *)
Definition exclusive (m : bool) (pl : list Goroutine) : Prop :=
  (m = false -> forall i g, pl !! i = Some g -> critical g = false) /\
  (forall i j gi gj, pl !! i = Some gi -> pl !! j = Some gj ->
     critical gi = true -> critical gj = true -> i = j).

(** The call of a goroutine has ended, or is about to end, in error. *)
Definition failed (p : Position) : Prop :=
  match p with
  | Fetched (Err _) | AtUnlock (_, Some _) | Done (_, Some _) => True
  | _ => False
  end.

(** The cache cannot serve [cid] at any time from [lo] on. *)
Definition stale (tm : AccessTokenManager) (cid : string) (lo : Time) : Prop :=
  match tokenCache tm !! cid with
  | None => True
  | Some token => ExpiresAt token <= lo
  end.

(** The two phases of a burst of calls for [cid] that starts at [lo]:
    nobody has fetched yet, or [token] has been fetched. *)
Definition before_fetch (cid : string) (lo : Time) (s : State) : Prop :=
  fetches (trace (world s)) = 0%nat /\
  stale (manager s) cid lo /\
  forall i g, pool s !! i = Some g ->
    pc g = AtLock \/ pc g = AtLookup \/ pc g = InFetch.

Definition after_fetch (cid : string) (lo : Time) (token : AccessToken)
    (s : State) : Prop :=
  fetches (trace (world s)) = 1%nat /\
  lo + time.Hour <= ExpiresAt token /\
  (forall i g, pool s !! i = Some g ->
     match pc g with
     | AtLock | AtLookup => True
     | InFetch => False
     | Fetched r => r = Ok token
     | AtUnlock r | Done r => r = (Value token, None)
     end) /\
  (tokenCache (manager s) !! cid = Some token \/
   exists i g, pool s !! i = Some g /\ pc g = Fetched (Ok token)).

End Goroutines.

End Concurrent.

(** ** A concrete world to run the program in

    The clock is a counter of nanoseconds; the network is a script of
    replies, one consumed by each request, each taking some time.  The URL
    check is the first test of Go's [url.Parse] (no ASCII control byte);
    the decoder knows a handful of bodies. *)

Module Demo.

Inductive Reply :=
| Refused                       (* the transport fails *)
| Answer (status : Z) (body : result string string).
                                (* a response; reading it gives [body] *)

Record Ext := mkExt {
  clock : Z;
  script : list (Duration * Reply)
}.

Definition isCTL (c : ascii) : bool :=
  let n := N_of_ascii c in ((n <? 32) || (n =? 127))%N.

Fixpoint stringContainsCTLByte (s : string) : bool :=
  match s with
  | EmptyString => false
  | String c rest => isCTL c || stringContainsCTLByte rest
  end.

Definition q : string := String "034"%char EmptyString.

Definition body_abc123 : string :=
  "{" +:+ q +:+ "access_token" +:+ q +:+ ":" +:+ q +:+ "abc123" +:+ q +:+ ","
      +:+ q +:+ "expires_in" +:+ q +:+ ":3600}".

Definition body_short_lived : string :=
  "{" +:+ q +:+ "access_token" +:+ q +:+ ":" +:+ q +:+ "abc123" +:+ q +:+ ","
      +:+ q +:+ "expires_in" +:+ q +:+ ":60}".

Definition body_no_token : string :=
  "{" +:+ q +:+ "error" +:+ q +:+ ":" +:+ q +:+ "unauthorized" +:+ q +:+ "}".

Definition Unmarshal (body : string) : result string AccessTokenResponse.t :=
  if String.eqb body body_abc123 then
    Ok (AccessTokenResponse.mk "abc123" "" 3600 "" "")
  else if String.eqb body body_short_lived then
    Ok (AccessTokenResponse.mk "abc123" "" 60 "" "")
  else if String.eqb body body_no_token then
    Ok (AccessTokenResponse.mk "" "" 0 "" "")
  else if String.eqb body "{}" then
    Ok (AccessTokenResponse.mk "" "" 0 "" "")
  else Err "invalid character".

#[global] Instance platform : Platform Ext string (result string string) := {|
  env_Now := fun e => (clock e, e);
  env_ParseURL := fun url =>
    if stringContainsCTLByte url
    then Some "net/url: invalid control character in URL" else None;
  env_Do := fun _ e =>
    match script e with
    | [] => (Err "connection refused", e)
    | (d, Refused) :: rest =>
        (Err "connection refused", {| clock := clock e + d; script := rest |})
    | (d, Answer status body) :: rest =>
        (Ok (mkResponse status body), {| clock := clock e + d; script := rest |})
    end;
  env_ReadAll := fun s e => (s, e);
  env_Close := fun _ e => e;
  env_Unmarshal := Unmarshal
|}.

Definition world (now : Z) (replies : list (Duration * Reply)) : World Ext :=
  {| ext := {| clock := now; script := replies |}; trace := [] |}.

(** The same world at a later time. *)
Definition later (d : Duration) (w : World Ext) : World Ext :=
  {| ext := {| clock := clock (ext w) + d; script := script (ext w) |};
     trace := trace w |}.

Definition ok_abc123 : Duration * Reply := (5, Answer 200 (Ok body_abc123)).

Definition credential (T : Time) : AccessToken :=
  {| Value := "abc123"; ExpiresAt := T + time.Hour |}.

Definition cached (clientID : string) (tok : AccessToken) : AccessTokenManager :=
  {| tokenCache := {[ clientID := tok ]} |}.

(** A URL that [url.Parse] rejects: it ends in a line feed. *)
Definition bad_url : string := "https://uaa" +:+ String "010"%char EmptyString.

(** A token that expired at 500. *)
Definition old_credential : AccessToken := {| Value := "old"; ExpiresAt := 500 |}.

Definition the_call : string * string * string := ("id", "secret", "https://uaa").

End Demo.

(** ** Instruments for the facts beyond the cache's contract *)

(** The same world with a count of the response bodies that are open: a
    [client.Do] that returns a response opens one, [Body.Close] closes
    one. *)
Definition with_open_bodies {Ext error Stream}
    (P : Platform Ext error Stream) : Platform (Ext * Z) error Stream :=
  {| env_Now := fun e => let (t, e') := env_Now e.1 in (t, (e', e.2));
     env_ParseURL := env_ParseURL;
     env_Do := fun req e =>
       let (r, e') := env_Do req e.1 in
       (r, (e', match r with Ok _ => e.2 + 1 | Err _ => e.2 end));
     env_ReadAll := fun b e => let (r, e') := env_ReadAll b e.1 in (r, (e', e.2));
     env_Close := fun b e => (env_Close b e.1, e.2 - 1);
     env_Unmarshal := env_Unmarshal |}.

(** What the count hides. *)
Definition forget_open_bodies {Ext} (w : World (Ext * Z)) : World Ext :=
  {| ext := (ext w).1; trace := trace w |}.

Definition open_bodies {Ext} (w : World (Ext * Z)) : Z := (ext w).2.

(** The number of calls that returned an error. *)
Definition errors {error : Type} (rs : list (string * option error)) : nat :=
  length (filter (fun r => is_Some r.2) rs).

(** The clients of the calls that returned a nil error. *)
Fixpoint clients_served {error : Type} (calls : list (string * string * string))
    (rs : list (string * option error)) : gset string :=
  match calls, rs with
  | c :: calls', (_, None) :: rs' => {[ c.1.1 ]} ∪ clients_served calls' rs'
  | _ :: calls', (_, Some _) :: rs' => clients_served calls' rs'
  | _, _ => ∅
  end.

(** Every token in the cache expires one hour after a reading of the
    clock that the trace records. *)
Definition stamped (tm : AccessTokenManager) (l : list Event) : Prop :=
  forall k token, tokenCache tm !! k = Some token ->
    exists T, EvNow T ∈ l /\ ExpiresAt token = T + time.Hour.

(** The place of a character in a string, the inverse of the lookup
    [enc.encode[i]] (Go keeps it as [decodeMap]). *)
Fixpoint index_of (c : ascii) (s : string) : option N :=
  match s with
  | EmptyString => None
  | String d rest =>
      if Ascii.eqb c d then Some 0%N else option_map N.succ (index_of c rest)
  end.

(** The 24-bit value [Encode] builds from three source bytes. *)
Definition group_value (a b c : N) : N :=
  N.lor (N.lor (N.shiftl a 16) (N.shiftl b 8)) c.

(** A client identifier as RFC 7617 wants it: without a colon. *)
Fixpoint no_colon (s : string) : bool :=
  match s with
  | EmptyString => true
  | String c rest => negb (Ascii.eqb c ":"%char) && no_colon rest
  end.

(** The statements a goroutine has left at most, by position: [Lock],
    the lookup, the fetch, the store, [Unlock]. *)
Definition remaining {error : Type} (p : @Concurrent.Position error) : nat :=
  match p with
  | Concurrent.AtLock => 5
  | Concurrent.AtLookup => 4
  | Concurrent.InFetch => 3
  | Concurrent.Fetched _ => 2
  | Concurrent.AtUnlock _ => 1
  | Concurrent.Done _ => 0
  end.

Definition work {error : Type} (pl : list (@Concurrent.Goroutine error)) : nat :=
  sum_list ((fun g => remaining (Concurrent.pc g)) <$> pl).

Example base64_empty : base64.EncodeToString "" = "".
Proof. reflexivity. Qed.

Example base64_f : base64.EncodeToString "f" = "Zg==".
Proof. reflexivity. Qed.

Example base64_fo : base64.EncodeToString "fo" = "Zm8=".
Proof. reflexivity. Qed.

Example base64_foobar : base64.EncodeToString "foobar" = "Zm9vYmFy".
Proof. reflexivity. Qed.

Example base64_credential : base64.EncodeToString "id:secret" = "aWQ6c2VjcmV0".
Proof. reflexivity. Qed.

Example Hour_ns : time.Hour = 3600000000000.
Proof. reflexivity. Qed.

(** The scenario of the specification's section 8: a fetch at [T0], a
    hit thirty minutes later, a new fetch after sixty-one minutes. *)
Example scenario_first_call :
  let '(r, w) := GetAccessToken NewAccessTokenManager "id" "secret" "https://uaa"
                   (Demo.world 1000 [Demo.ok_abc123]) in
  r.1 = ("abc123", None) /\ tokenCache r.2 !! "id" = Some (Demo.credential 1005) /\
  fetches (trace w) = 1%nat.
Proof. vm_compute. auto. Qed.

Example scenario_second_call :
  let '(r, w) := GetAccessToken (Demo.cached "id" (Demo.credential 1005))
                   "id" "secret" "https://uaa"
                   (Demo.world (1005 + 30 * time.Minute) [Demo.ok_abc123]) in
  r.1 = ("abc123", None) /\ fetches (trace w) = 0%nat.
Proof. vm_compute. auto. Qed.

Example scenario_third_call :
  let '(r, w) := GetAccessToken (Demo.cached "id" (Demo.credential 1005))
                   "id" "secret" "https://uaa"
                   (Demo.world (1005 + 61 * time.Minute) [Demo.ok_abc123]) in
  r.1 = ("abc123", None) /\ fetches (trace w) = 1%nat /\
  tokenCache r.2 !! "id" = Some (Demo.credential (1005 + 61 * time.Minute + 5)).
Proof. vm_compute. auto. Qed.

(** While one goroutine is fetching, another that calls [Lock] cannot
    move; calls for different clients are served one after the other. *)
Example lock_blocks_second_caller :
  let s0 := Concurrent.start NewAccessTokenManager (Demo.world 1000 [Demo.ok_abc123])
              [("a", "secret", "https://uaa"); ("b", "secret", "https://uaa")] in
  match Concurrent.run [0; 0]%nat s0 with
  | Some s =>
      Concurrent.pc <$> Concurrent.pool s = [Concurrent.InFetch; Concurrent.AtLock] /\
      Concurrent.thread_step 1 s = None
  | None => False
  end.
Proof. vm_compute. auto. Qed.

Example different_clients_fetch_in_turn :
  let s0 := Concurrent.start NewAccessTokenManager
              (Demo.world 1000 [Demo.ok_abc123; Demo.ok_abc123])
              [("a", "secret", "https://uaa"); ("b", "secret", "https://uaa")] in
  match Concurrent.run [1; 1; 1; 1; 1; 0; 0; 0; 0; 0]%nat s0 with
  | Some s =>
      Concurrent.pc <$> Concurrent.pool s =
        [Concurrent.Done ("abc123", None); Concurrent.Done ("abc123", None)] /\
      fetches (trace (Concurrent.world s)) = 2%nat /\
      dom (tokenCache (Concurrent.manager s)) = {[ "a"; "b" ]}
  | None => False
  end.
Proof. vm_compute. auto. Qed.

(** * Facts about the sequential program *)

Lemma fetches_app (l1 l2 : list Event) :
  fetches (l1 ++ l2) = (fetches l1 + fetches l2)%nat.
Proof. unfold fetches. by rewrite filter_app, length_app. Qed.

Lemma sent_app (l1 l2 : list Event) : sent (l1 ++ l2) = sent l1 ++ sent l2.
Proof. unfold sent. apply omap_app. Qed.

Lemma Before_lt (t u : Time) : time.Before t u = true <-> t < u.
Proof. unfold time.Before. apply Z.ltb_lt. Qed.

Lemma Before_ge (t u : Time) : time.Before t u = false <-> u <= t.
Proof. unfold time.Before. rewrite Z.ltb_ge. reflexivity. Qed.

Section Oauth2Facts.

Context {Ext error Stream : Type} `{P : Platform Ext error Stream}.

Implicit Types (tm : AccessTokenManager) (w : World Ext).
Implicit Types (clientID clientSecret uaaUrl : string).

(** Unfold the monad and the calls into the world. *)
Ltac unfold_calls :=
  unfold bind, ret, emit, time_Now, client_Do, ioutil_ReadAll, Body_Close,
    json_Unmarshal, http_NewRequest in *.

(** The request built on lines 64-74 is the one of the specification. *)
Lemma built_request clientID clientSecret uaaUrl :
  Request_SetHeader
    {| Method := "POST";
       URL := uaaUrl +:+ "/oauth/token?grant_type=client_credentials";
       Payload := ""; Headers := ∅ |}
    "Authorization"
    ("Basic " +:+ base64.EncodeToString (clientID +:+ ":" +:+ clientSecret))
  = tokenRequest clientID clientSecret uaaUrl.
Proof. reflexivity. Qed.

(** The world in which [GetAccessToken] decides between the cache and
    the fetcher. *)
Lemma cacheLookup_absent tm clientID w :
  tokenCache tm !! clientID = None ->
  cacheLookup tm clientID w = (None, w).
Proof. intros H. unfold cacheLookup. by rewrite H. Qed.

Lemma cacheLookup_present tm clientID w token :
  tokenCache tm !! clientID = Some token ->
  cacheLookup tm clientID w =
    (if time.Before (env_Now (ext w)).1 (ExpiresAt token) then Some token else None,
     {| ext := (env_Now (ext w)).2;
        trace := trace w ++ [EvNow (env_Now (ext w)).1] |}).
Proof.
  intros H. unfold cacheLookup. rewrite H. unfold_calls.
  by destruct (env_Now (ext w)).
Qed.

Lemma cacheLookup_trace tm clientID w hit w' :
  cacheLookup tm clientID w = (hit, w') ->
  exists evs, trace w' = trace w ++ evs /\ fetches evs = 0%nat /\ sent evs = [] /\
    forall t, EvNow t ∈ evs ->
      exists token, tokenCache tm !! clientID = Some token /\
        hit = if time.Before t (ExpiresAt token) then Some token else None.
Proof.
  intros H. destruct (tokenCache tm !! clientID) as [token|] eqn:E.
  - rewrite (cacheLookup_present _ _ _ _ E) in H. injection H as <- <-.
    eexists; split; [reflexivity|]. repeat split.
    intros t Ht. apply list_elem_of_singleton in Ht. injection Ht as ->.
    by exists token.
  - rewrite (cacheLookup_absent _ _ _ E) in H. injection H as <- <-.
    exists []. rewrite app_nil_r. repeat split.
    intros t Ht. by apply elem_of_nil in Ht.
Qed.

Lemma cacheLookup_hit_inv tm clientID w token w' :
  cacheLookup tm clientID w = (Some token, w') ->
  tokenCache tm !! clientID = Some token /\
  (env_Now (ext w)).1 < ExpiresAt token.
Proof.
  intros H. destruct (tokenCache tm !! clientID) as [tok|] eqn:E.
  - rewrite (cacheLookup_present _ _ _ _ E) in H.
    destruct (time.Before _ _) eqn:B; [|discriminate].
    injection H as -> _. split; [done|]. by apply Before_lt.
  - by rewrite (cacheLookup_absent _ _ _ E) in H.
Qed.

Lemma generateAccessToken_path clientID clientSecret uaaUrl w :
  fetch_path clientID clientSecret uaaUrl w
    (generateAccessToken clientID clientSecret uaaUrl w).1
    (generateAccessToken clientID clientSecret uaaUrl w).2.
Proof.
  unfold generateAccessToken. unfold_calls. simpl.
  destruct (env_ParseURL _) as [err|] eqn:EU; simpl.
  { by apply path_bad_url. }
  rewrite built_request.
  destruct (env_Do _ _) as [[resp|err] e1] eqn:ED; simpl.
  2:{ rewrite <- app_assoc. by eapply path_transport. }
  destruct (env_ReadAll _ _) as [[body|err] e2] eqn:ER; simpl.
  2:{ rewrite <- app_assoc. by eapply path_read. }
  destruct (env_Unmarshal body) as [tokenResp|err] eqn:EJ; simpl.
  2:{ rewrite <- app_assoc. by eapply path_decode. }
  destruct (env_Now e2) as [T e3] eqn:EN; simpl.
  rewrite <- !app_assoc. by eapply path_ok.
Qed.

Lemma generateAccessToken_inv clientID clientSecret uaaUrl w r w' :
  generateAccessToken clientID clientSecret uaaUrl w = (r, w') ->
  fetch_path clientID clientSecret uaaUrl w r w'.
Proof.
  intros H. pose proof (generateAccessToken_path clientID clientSecret uaaUrl w) as F.
  by rewrite H in F.
Qed.

End Oauth2Facts.

(** * The cache manager, one call at a time *)

Section GetAccessTokenFacts.

Context {Ext error Stream : Type} `{P : Platform Ext error Stream}.

Implicit Types (tm : AccessTokenManager) (w : World Ext).
Implicit Types (clientID clientSecret uaaUrl : string).

(** What a call does once the cache lookup has missed. *)
Lemma GetAccessToken_after_miss tm clientID clientSecret uaaUrl w w0 :
  cacheLookup tm clientID w = (None, w0) ->
  GetAccessToken tm clientID clientSecret uaaUrl w =
    match generateAccessToken clientID clientSecret uaaUrl w0 with
    | (Ok newToken, w') =>
        ((Value newToken, None,
          {| tokenCache := <[clientID := newToken]> (tokenCache tm) |}), w')
    | (Err err, w') => (("", Some err, tm), w')
    end.
Proof.
  intros H. unfold GetAccessToken, bind. rewrite H.
  by destruct (generateAccessToken _ _ _ w0) as [[newToken|err] w'].
Qed.

Lemma GetAccessToken_after_hit tm clientID clientSecret uaaUrl w token w0 :
  cacheLookup tm clientID w = (Some token, w0) ->
  GetAccessToken tm clientID clientSecret uaaUrl w = ((Value token, None, tm), w0).
Proof. intros H. unfold GetAccessToken, bind. by rewrite H. Qed.

(** The world a missing or expired entry leaves for the fetcher. *)
Lemma cacheLookup_miss tm clientID w :
  (tokenCache tm !! clientID = None \/
   exists token, tokenCache tm !! clientID = Some token /\
                 ~ (env_Now (ext w)).1 < ExpiresAt token) ->
  exists w0, cacheLookup tm clientID w = (None, w0) /\
             fetches (trace w0) = fetches (trace w) /\
             sent (trace w0) = sent (trace w).
Proof.
  intros [E | (token & E & Hexp)].
  - exists w. by rewrite (cacheLookup_absent _ _ _ E).
  - eexists. rewrite (cacheLookup_present _ _ _ _ E).
    assert (time.Before (env_Now (ext w)).1 (ExpiresAt token) = false) as ->
      by (apply Before_ge; lia).
    split; [reflexivity|]. simpl. rewrite fetches_app, sent_app. simpl.
    split; [unfold fetches; simpl; lia | by rewrite app_nil_r].
Qed.

Lemma fetch_path_fetches clientID clientSecret uaaUrl w r w' :
  fetch_path clientID clientSecret uaaUrl w r w' ->
  fetches (trace w') = S (fetches (trace w)).
Proof.
  intros F. destruct F; simpl; rewrite fetches_app; unfold fetches; simpl; lia.
Qed.

(** A lookup that finds a token still valid ends the call at line 50;
    the world has seen one reading of the clock. *)
Lemma GetAccessToken_served tm clientID clientSecret uaaUrl w token :
  tokenCache tm !! clientID = Some token ->
  (env_Now (ext w)).1 < ExpiresAt token ->
  GetAccessToken tm clientID clientSecret uaaUrl w =
    ((Value token, None, tm),
     {| ext := (env_Now (ext w)).2;
        trace := trace w ++ [EvNow (env_Now (ext w)).1] |}).
Proof.
  intros E Hlt. apply GetAccessToken_after_hit.
  rewrite (cacheLookup_present _ _ _ _ E).
  apply Before_lt in Hlt. by rewrite Hlt.
Qed.

(** A lookup that finds nothing valid is followed by one run of the
    fetcher. *)
Lemma GetAccessToken_refetch tm clientID clientSecret uaaUrl w :
  (tokenCache tm !! clientID = None \/
   exists token, tokenCache tm !! clientID = Some token /\
                 ~ (env_Now (ext w)).1 < ExpiresAt token) ->
  fetches (trace (GetAccessToken tm clientID clientSecret uaaUrl w).2) =
    S (fetches (trace w)).
Proof.
  intros Hmiss. destruct (cacheLookup_miss _ _ _ Hmiss) as (w0 & Hl & Hf & _).
  rewrite (GetAccessToken_after_miss _ _ _ _ _ _ Hl), <- Hf.
  pose proof (generateAccessToken_path clientID clientSecret uaaUrl w0) as F.
  apply fetch_path_fetches in F.
  by destruct (generateAccessToken clientID clientSecret uaaUrl w0) as [[?|?] ?].
Qed.

(** C1 (cache hit): when the cache holds an entry for [clientID] whose
    [ExpiresAt] is strictly after the time [time.Now()] reports, the
    call returns the entry's value and a nil error, leaves the manager
    as it was, and the only thing that happens in the world is that one
    reading of the clock: no call of the fetcher, nothing sent. *)
Theorem GetAccessToken_cache_hit tm clientID clientSecret uaaUrl w token :
  tokenCache tm !! clientID = Some token ->
  (env_Now (ext w)).1 < ExpiresAt token ->
  exists w',
    GetAccessToken tm clientID clientSecret uaaUrl w = ((Value token, None, tm), w') /\
    trace w' = trace w ++ [EvNow (env_Now (ext w)).1] /\
    fetches (trace w') = fetches (trace w) /\
    sent (trace w') = sent (trace w).
Proof.
  intros E Hlt. eexists. split; [by apply GetAccessToken_served|].
  simpl. split; [reflexivity|]. rewrite fetches_app, sent_app. simpl.
  split; [unfold fetches; simpl; lia | by rewrite app_nil_r].
Qed.

(** C3 (error atomicity): when the lookup misses and the fetch it
    triggers fails with [err], the call returns [err] and the manager,
    hence the whole cache and in particular any expired entry for
    [clientID], is the one it started with. *)
Theorem GetAccessToken_fetch_error_keeps_cache
    tm clientID clientSecret uaaUrl w w0 err w' :
  cacheLookup tm clientID w = (None, w0) ->
  generateAccessToken clientID clientSecret uaaUrl w0 = (Err err, w') ->
  exists v tm',
    GetAccessToken tm clientID clientSecret uaaUrl w = ((v, Some err, tm'), w') /\
    tm' = tm /\
    tokenCache tm' = tokenCache tm /\
    tokenCache tm' !! clientID = tokenCache tm !! clientID.
Proof.
  intros Hmiss Hfetch. exists "", tm.
  rewrite (GetAccessToken_after_miss _ _ _ _ _ _ Hmiss), Hfetch. auto.
Qed.

(** C4 (miss path): with no entry for [clientID], or one whose
    [ExpiresAt] is not strictly after the current time, the call runs
    the fetcher exactly once; when the fetch succeeds the new token is
    stored under [clientID], replacing what was there, and its value is
    returned with a nil error. *)
Theorem GetAccessToken_miss_fetches_once tm clientID clientSecret uaaUrl w :
  (tokenCache tm !! clientID = None \/
   exists token, tokenCache tm !! clientID = Some token /\
                 ~ (env_Now (ext w)).1 < ExpiresAt token) ->
  exists w0 r w',
    cacheLookup tm clientID w = (None, w0) /\
    generateAccessToken clientID clientSecret uaaUrl w0 = (r, w') /\
    (GetAccessToken tm clientID clientSecret uaaUrl w).2 = w' /\
    fetches (trace w') = S (fetches (trace w)) /\
    forall newToken, r = Ok newToken ->
      exists tm',
        GetAccessToken tm clientID clientSecret uaaUrl w =
          ((Value newToken, None, tm'), w') /\
        tokenCache tm' = <[clientID := newToken]> (tokenCache tm) /\
        tokenCache tm' !! clientID = Some newToken.
Proof.
  intros Hmiss. destruct (cacheLookup_miss _ _ _ Hmiss) as (w0 & Hl & Hf & _).
  destruct (generateAccessToken clientID clientSecret uaaUrl w0) as [r w'] eqn:G.
  exists w0, r, w'. split; [done|]. split; [done|].
  rewrite (GetAccessToken_after_miss _ _ _ _ _ _ Hl), G.
  split; [by destruct r|].
  split.
  { rewrite <- Hf. eapply fetch_path_fetches, generateAccessToken_inv, G. }
  intros newToken ->. eexists. split; [reflexivity|]. simpl.
  split; [done|]. apply lookup_insert_eq.
Qed.

(** C9 (empty value on error): when the lookup misses and the fetch
    fails with [err], the call returns the empty string as its value
    together with the non-nil error [err]. *)
Theorem GetAccessToken_error_value_empty tm clientID clientSecret uaaUrl w w0 err w' :
  cacheLookup tm clientID w = (None, w0) ->
  generateAccessToken clientID clientSecret uaaUrl w0 = (Err err, w') ->
  GetAccessToken tm clientID clientSecret uaaUrl w = (("", Some err, tm), w') /\
  (GetAccessToken tm clientID clientSecret uaaUrl w).1.1.1 = "" /\
  (GetAccessToken tm clientID clientSecret uaaUrl w).1.1.2 = Some err.
Proof.
  intros Hmiss Hfetch.
  rewrite (GetAccessToken_after_miss _ _ _ _ _ _ Hmiss), Hfetch. done.
Qed.

(** C8, one call: a call changes the cache at most at the key it was
    asked for, and removes nothing. *)
Lemma GetAccessToken_frame tm clientID clientSecret uaaUrl w :
  let tm' := (GetAccessToken tm clientID clientSecret uaaUrl w).1.2 in
  (forall k, k <> clientID -> tokenCache tm' !! k = tokenCache tm !! k) /\
  dom (tokenCache tm) ⊆ dom (tokenCache tm').
Proof.
  destruct (cacheLookup tm clientID w) as [[token|] w0] eqn:L.
  - rewrite (GetAccessToken_after_hit _ _ _ _ _ _ _ L). simpl. done.
  - rewrite (GetAccessToken_after_miss _ _ _ _ _ _ L).
    destruct (generateAccessToken _ _ _ w0) as [[newToken|err'] w1]; simpl; [|done].
    split.
    + intros k Hk. by apply lookup_insert_ne.
    + rewrite dom_insert. set_solver.
Qed.

(** C8 (no deletion, per-key frame): a call leaves the entry of every
    other key as it was, present or absent, and removes no key; over
    any number of calls, from a new manager or from any later state,
    the set of cached keys only grows. *)
Theorem GetAccessToken_never_deletes :
  (forall tm clientID clientSecret uaaUrl w,
     let tm' := (GetAccessToken tm clientID clientSecret uaaUrl w).1.2 in
     (forall clientID', clientID' <> clientID ->
        tokenCache tm' !! clientID' = tokenCache tm !! clientID') /\
     (forall k, is_Some (tokenCache tm !! k) -> is_Some (tokenCache tm' !! k))) /\
  (forall tm tm', lifetime tm tm' -> dom (tokenCache tm) ⊆ dom (tokenCache tm')) /\
  tokenCache NewAccessTokenManager = ∅.
Proof.
  split; [|split].
  - intros tm clientID clientSecret uaaUrl w.
    destruct (GetAccessToken_frame tm clientID clientSecret uaaUrl w) as [Hne Hsub].
    split; [exact Hne|]. intros k Hk.
    apply elem_of_dom. apply Hsub. by apply elem_of_dom.
  - induction 1 as [|tm tm1 tm2 _ IH (c & s & u & w & <-)]; [done|].
    etrans; [exact IH|]. apply GetAccessToken_frame.
  - reflexivity.
Qed.

End GetAccessTokenFacts.

(** * The fetcher *)

Section FetcherFacts.

Context {Ext error Stream : Type} `{P : Platform Ext error Stream}.

Implicit Types (tm : AccessTokenManager) (w : World Ext).
Implicit Types (clientID clientSecret uaaUrl : string).

Lemma generateAccessToken_ok clientID clientSecret uaaUrl w resp e1 body e2 tokenResp :
  env_ParseURL (uaaUrl +:+ "/oauth/token?grant_type=client_credentials") = None ->
  env_Do (tokenRequest clientID clientSecret uaaUrl) (ext w) = (Ok resp, e1) ->
  env_ReadAll (Body resp) e1 = (Ok body, e2) ->
  env_Unmarshal body = Ok tokenResp ->
  generateAccessToken clientID clientSecret uaaUrl w =
    (Ok {| Value := AccessTokenResponse.AccessToken tokenResp;
           ExpiresAt := (env_Now e2).1 + time.Hour |},
     {| ext := env_Close (Body resp) (env_Now e2).2;
        trace := trace w ++ [EvFetch clientID clientSecret uaaUrl;
                             EvSend (tokenRequest clientID clientSecret uaaUrl);
                             EvNow (env_Now e2).1] |}).
Proof.
  intros HU HD HR HJ.
  pose proof (generateAccessToken_path clientID clientSecret uaaUrl w) as F.
  destruct (generateAccessToken clientID clientSecret uaaUrl w) as [r w'].
  simpl in F.
  destruct F as [| | | |resp' e1' body' e2' tokenResp' T e3 _ HD' HR' HJ' HN];
    try congruence.
  rewrite HD in HD'. injection HD' as <- <-.
  rewrite HR in HR'. injection HR' as <- <-.
  rewrite HJ in HJ'. injection HJ' as <-.
  by rewrite HN.
Qed.

(** The fetcher does not look at the status code. *)
Lemma generateAccessToken_with_status (f : Z -> Z) clientID clientSecret uaaUrl w :
  generateAccessToken (P := with_status f P) clientID clientSecret uaaUrl w =
  generateAccessToken clientID clientSecret uaaUrl w.
Proof.
  unfold generateAccessToken, bind, ret, emit, time_Now, client_Do, ioutil_ReadAll,
    Body_Close, json_Unmarshal, http_NewRequest. simpl.
  destruct (env_ParseURL _); [done|]. simpl.
  destruct (env_Do _ _) as [[resp|err] e1]; [|done]. simpl.
  destruct (env_ReadAll _ _) as [[body|err] e2]; [|done]. simpl.
  destruct (env_Unmarshal body); [|done]. simpl.
  by destruct (env_Now e2).
Qed.

(** Nor at [expires_in]. *)
Lemma generateAccessToken_with_expires_in (f : Z -> Z) clientID clientSecret uaaUrl w :
  generateAccessToken (P := with_expires_in f P) clientID clientSecret uaaUrl w =
  generateAccessToken clientID clientSecret uaaUrl w.
Proof.
  unfold generateAccessToken, bind, ret, emit, time_Now, client_Do, ioutil_ReadAll,
    Body_Close, json_Unmarshal, http_NewRequest. simpl.
  destruct (env_ParseURL _); [done|]. simpl.
  destruct (env_Do _ _) as [[resp|err] e1]; [|done]. simpl.
  destruct (env_ReadAll _ _) as [[body|err] e2]; [|done]. simpl.
  destruct (env_Unmarshal body); [|done]. simpl.
  by destruct (env_Now e2).
Qed.

Lemma GetAccessToken_with_expires_in (f : Z -> Z) tm clientID clientSecret uaaUrl w :
  GetAccessToken (P := with_expires_in f P) tm clientID clientSecret uaaUrl w =
  GetAccessToken tm clientID clientSecret uaaUrl w.
Proof.
  unfold GetAccessToken, bind.
  replace (cacheLookup (P := with_expires_in f P) tm clientID w)
    with (cacheLookup tm clientID w) by reflexivity.
  destruct (cacheLookup tm clientID w) as [[token|] w0]; [done|].
  by rewrite generateAccessToken_with_expires_in.
Qed.

(** C5, as amended (request construction): when [http.NewRequest]
    accepts the URL [uaaUrl] followed by
    "/oauth/token?grant_type=client_credentials", the fetch issues, by
    calling [client.Do] on it, a POST request whose URL is that URL,
    whose body is empty and whose Authorization header is "Basic "
    followed by the standard base64 encoding of clientID:clientSecret. *)
Theorem generateAccessToken_request clientID clientSecret uaaUrl w :
  env_ParseURL (uaaUrl +:+ "/oauth/token?grant_type=client_credentials") = None ->
  exists req evs,
    trace (generateAccessToken clientID clientSecret uaaUrl w).2 = trace w ++ evs /\
    EvSend req ∈ evs /\
    Method req = "POST" /\
    URL req = uaaUrl +:+ "/oauth/token?grant_type=client_credentials" /\
    Payload req = "" /\
    Header_Get (Headers req) "Authorization" =
      "Basic " +:+ base64.EncodeToString (clientID +:+ ":" +:+ clientSecret).
Proof.
  intros Haccepted.
  pose proof (generateAccessToken_path clientID clientSecret uaaUrl w) as F.
  exists (tokenRequest clientID clientSecret uaaUrl).
  destruct F as [err HU|err e1 HU|err resp e1 e2 HU|err resp e1 body e2 HU
                |resp e1 body e2 tokenResp T e3 HU];
    [congruence|..];
    (eexists; split; [reflexivity|]);
    (split; [apply list_elem_of_further, list_elem_of_here|]);
    repeat split.
Qed.

(** C6 (no status-code validation): whatever the status code of the
    response, when its body is read and decodes, the fetch succeeds with
    the decoded [access_token] (empty or not) as the value; rewriting
    the status codes changes nothing; and an error returned by the
    fetch is the error of [http.NewRequest], of [client.Do], of
    [ioutil.ReadAll] or of [json.Unmarshal]. *)
Theorem generateAccessToken_ignores_status
    clientID clientSecret uaaUrl w resp e1 body e2 tokenResp :
  env_ParseURL (uaaUrl +:+ "/oauth/token?grant_type=client_credentials") = None ->
  env_Do (tokenRequest clientID clientSecret uaaUrl) (ext w) = (Ok resp, e1) ->
  env_ReadAll (Body resp) e1 = (Ok body, e2) ->
  env_Unmarshal body = Ok tokenResp ->
  (exists token w',
     generateAccessToken clientID clientSecret uaaUrl w = (Ok token, w') /\
     Value token = AccessTokenResponse.AccessToken tokenResp) /\
  (forall f : Z -> Z,
     generateAccessToken (P := with_status f P) clientID clientSecret uaaUrl w =
     generateAccessToken clientID clientSecret uaaUrl w) /\
  (forall clientID' clientSecret' uaaUrl' w1 err w1',
     generateAccessToken clientID' clientSecret' uaaUrl' w1 = (Err err, w1') ->
     let req := tokenRequest clientID' clientSecret' uaaUrl' in
     env_ParseURL (URL req) = Some err \/
     (exists e, env_Do req (ext w1) = (Err err, e)) \/
     (exists r e e', env_Do req (ext w1) = (Ok r, e) /\
                     env_ReadAll (Body r) e = (Err err, e')) \/
     (exists r e b e', env_Do req (ext w1) = (Ok r, e) /\
                       env_ReadAll (Body r) e = (Ok b, e') /\
                       env_Unmarshal b = Err err)).
Proof.
  intros HU HD HR HJ. split; [|split].
  - eexists _, _. split; [by eapply generateAccessToken_ok|]. done.
  - intros f. apply generateAccessToken_with_status.
  - intros c s u w1 err w1' G. apply generateAccessToken_inv in G.
    inversion G; subst; simpl; eauto 10.
Qed.

End FetcherFacts.

(** * The validity window *)

Section WindowFacts.

Context {Ext error Stream : Type} `{P : Platform Ext error Stream}.

Implicit Types (tm : AccessTokenManager) (w : World Ext).
Implicit Types (clientID clientSecret uaaUrl : string).

(** A successful fetch ends with a reading [T] of the clock and stamps
    the token with [T] plus one hour. *)
Lemma generateAccessToken_stamp clientID clientSecret uaaUrl w token w' :
  generateAccessToken clientID clientSecret uaaUrl w = (Ok token, w') ->
  exists T,
    trace w' = trace w ++ [EvFetch clientID clientSecret uaaUrl;
                           EvSend (tokenRequest clientID clientSecret uaaUrl);
                           EvNow T] /\
    ExpiresAt token = T + time.Hour.
Proof.
  intros G. apply generateAccessToken_inv in G. inversion G; subst.
  by eexists.
Qed.

(** A read of a cached token before its expiry is served from the
    cache; a read at or after it runs the fetcher. *)
Lemma GetAccessToken_read tm clientID clientSecret uaaUrl w token :
  tokenCache tm !! clientID = Some token ->
  let t := (env_Now (ext w)).1 in
  let out := GetAccessToken tm clientID clientSecret uaaUrl w in
  (t < ExpiresAt token ->
     out.1 = (Value token, None, tm) /\
     fetches (trace out.2) = fetches (trace w)) /\
  (ExpiresAt token <= t ->
     fetches (trace out.2) = S (fetches (trace w))).
Proof.
  intros E t out. split; intros Ht.
  - unfold out. rewrite (GetAccessToken_served _ _ _ _ _ _ E Ht). simpl.
    split; [done|]. rewrite fetches_app. unfold fetches. simpl. lia.
  - unfold out. apply GetAccessToken_refetch.
    right. exists token. split; [done|]. fold t. lia.
Qed.

(** C2 (fixed one-hour window): a call that misses and whose fetch
    succeeds stores a token whose [ExpiresAt] is the clock reading [T]
    that ends the fetch plus [time.Hour], 3600 seconds, whatever
    [expires_in] the server reported; any later call for that client
    that still finds this token is served from the cache when the clock
    reads less than [T] plus one hour, and runs the fetcher when it
    reads [T] plus one hour or more. *)
Theorem GetAccessToken_one_hour_window
    tm clientID clientSecret uaaUrl w w0 newToken w1 :
  cacheLookup tm clientID w = (None, w0) ->
  generateAccessToken clientID clientSecret uaaUrl w0 = (Ok newToken, w1) ->
  exists T tm1,
    trace w1 = trace w0 ++ [EvFetch clientID clientSecret uaaUrl;
                            EvSend (tokenRequest clientID clientSecret uaaUrl);
                            EvNow T] /\
    GetAccessToken tm clientID clientSecret uaaUrl w =
      ((Value newToken, None, tm1), w1) /\
    tokenCache tm1 !! clientID = Some newToken /\
    ExpiresAt newToken = T + time.Hour /\
    time.Hour = 3600 * 1000000000 /\
    (forall f : Z -> Z,
       GetAccessToken (P := with_expires_in f P) tm clientID clientSecret uaaUrl w =
         ((Value newToken, None, tm1), w1)) /\
    (forall tm2 clientSecret2 uaaUrl2 w2,
       tokenCache tm2 !! clientID = Some newToken ->
       let t := (env_Now (ext w2)).1 in
       let out := GetAccessToken tm2 clientID clientSecret2 uaaUrl2 w2 in
       (t < T + time.Hour ->
          out.1 = (Value newToken, None, tm2) /\
          fetches (trace out.2) = fetches (trace w2)) /\
       (T + time.Hour <= t ->
          fetches (trace out.2) = S (fetches (trace w2)))).
Proof.
  intros Hmiss G.
  destruct (generateAccessToken_stamp _ _ _ _ _ _ G) as (T & Htr & Hexp).
  exists T, {| tokenCache := <[clientID := newToken]> (tokenCache tm) |}.
  assert (GetAccessToken tm clientID clientSecret uaaUrl w =
            ((Value newToken, None,
              {| tokenCache := <[clientID := newToken]> (tokenCache tm) |}), w1)) as HG.
  { by rewrite (GetAccessToken_after_miss _ _ _ _ _ _ Hmiss), G. }
  split; [exact Htr|]. split; [exact HG|]. split; [apply lookup_insert_eq|].
  split; [exact Hexp|]. split; [reflexivity|]. split.
  - intros f. by rewrite GetAccessToken_with_expires_in.
  - intros tm2 clientSecret2 uaaUrl2 w2 E2. rewrite <- Hexp.
    by apply GetAccessToken_read.
Qed.

(** While the calls for [clientID] come before the expiry of its
    cached token, the token stays where it is. *)
Lemma calls_before_keep clientID token tm tm' :
  tokenCache tm !! clientID = Some token ->
  calls_before clientID (ExpiresAt token) tm tm' ->
  tokenCache tm' !! clientID = Some token.
Proof.
  intros E. induction 1 as [|tm tm' c s u w _ IH Hc]; [done|].
  specialize (IH E). destruct (decide (c = clientID)) as [->|Hne].
  - by rewrite (GetAccessToken_served tm' clientID s u w token IH (Hc eq_refl)).
  - destruct (GetAccessToken_frame tm' c s u w) as [Hfr _].
    by rewrite Hfr.
Qed.

(** C10 (empty-token caching): when the lookup misses and the response
    body decodes to a structure whose [access_token] is the empty
    string (the zero value a missing field leaves), the call returns
    the empty string with a nil error and stores a token with empty
    value expiring one hour after the reading [T] that ends the fetch;
    after any further calls made before then, a call for the same
    client with the clock before [T] plus one hour returns the empty
    string from the cache, with a nil error, the cache as it was, and
    no call of the fetcher. *)
Theorem GetAccessToken_caches_empty_token
    tm clientID clientSecret uaaUrl w w0 resp e1 body e2 tokenResp :
  cacheLookup tm clientID w = (None, w0) ->
  env_ParseURL (uaaUrl +:+ "/oauth/token?grant_type=client_credentials") = None ->
  env_Do (tokenRequest clientID clientSecret uaaUrl) (ext w0) = (Ok resp, e1) ->
  env_ReadAll (Body resp) e1 = (Ok body, e2) ->
  env_Unmarshal body = Ok tokenResp ->
  AccessTokenResponse.AccessToken tokenResp = "" ->
  let T := (env_Now e2).1 in
  let empty := {| Value := ""; ExpiresAt := T + time.Hour |} in
  exists tm1 w1,
    GetAccessToken tm clientID clientSecret uaaUrl w = (("", None, tm1), w1) /\
    tokenCache tm1 = <[clientID := empty]> (tokenCache tm) /\
    forall tm2 clientSecret2 uaaUrl2 w2,
      calls_before clientID (T + time.Hour) tm1 tm2 ->
      (env_Now (ext w2)).1 < T + time.Hour ->
      exists w3,
        GetAccessToken tm2 clientID clientSecret2 uaaUrl2 w2 = (("", None, tm2), w3) /\
        fetches (trace w3) = fetches (trace w2) /\
        sent (trace w3) = sent (trace w2).
Proof.
  intros Hmiss HU HD HR HJ Hempty T empty.
  pose proof (generateAccessToken_ok _ _ _ _ _ _ _ _ _ HU HD HR HJ) as G.
  rewrite Hempty in G. fold T in G. fold empty in G.
  eexists _, _. split; [|split].
  - rewrite (GetAccessToken_after_miss _ _ _ _ _ _ Hmiss), G. reflexivity.
  - reflexivity.
  - intros tm2 clientSecret2 uaaUrl2 w2 Hcalls Ht.
    assert (tokenCache tm2 !! clientID = Some empty) as E2.
    { eapply calls_before_keep; [|exact Hcalls]. simpl. apply lookup_insert_eq. }
    eexists. split; [exact (GetAccessToken_served _ _ _ _ _ _ E2 Ht)|].
    simpl. rewrite fetches_app, sent_app. simpl.
    split; [unfold fetches; simpl; lia | by rewrite app_nil_r].
Qed.

End WindowFacts.

(** * Goroutines: the lock *)

(** The cases of [thread_step i s = Some s'], in the order lock, hit,
    miss, fetch, store, fail, unlock. *)
Ltac step_cases H i s g :=
  unfold Concurrent.thread_step in H;
  let Hg := fresh "Hg" in
  let Hpc := fresh "Hpc" in
  destruct (Concurrent.pool s !! i) as [g|] eqn:Hg; [|discriminate];
  destruct (Concurrent.pc g) as [| | |[?newToken|?err]|?r|?r] eqn:Hpc;
  [ let Hm := fresh "Hm" in destruct (Concurrent.mutex s) eqn:Hm; [discriminate|]
  | let Hl := fresh "Hl" in
    destruct (cacheLookup _ _ _) as [[?token|] ?w1] eqn:Hl
  | let Hf := fresh "Hf" in
    destruct (generateAccessToken _ _ _ _) as [?r ?w1] eqn:Hf
  | | | | discriminate ];
  injection H as <-.

Section LockFacts.

Context {Ext error Stream : Type} `{P : Platform Ext error Stream}.

Import Concurrent.

Implicit Types (s : @State Ext error) (g : @Goroutine error)
  (pl : list (@Goroutine error)).

Lemma lookup_update pl i g g' j gj :
  pl !! i = Some g ->
  <[i := g']> pl !! j = Some gj ->
  (j = i /\ gj = g') \/ (j <> i /\ pl !! j = Some gj).
Proof.
  intros Hi Hj. destruct (decide (j = i)) as [->|Hne].
  - left. split; [done|].
    rewrite list_lookup_insert_eq in Hj by (by eapply lookup_lt_Some).
    congruence.
  - right. split; [done|]. by rewrite list_lookup_insert_ne in Hj.
Qed.

Lemma exclusive_lock pl i g g' :
  exclusive false pl -> pl !! i = Some g -> exclusive true (<[i := g']> pl).
Proof.
  intros [Hfree _] Hi. split; [done|].
  intros j k gj gk Hj Hk Cj Ck.
  destruct (lookup_update _ _ _ _ _ _ Hi Hj) as [[-> _]|[_ Hj']];
  destruct (lookup_update _ _ _ _ _ _ Hi Hk) as [[-> _]|[_ Hk']]; try done.
  - rewrite (Hfree eq_refl _ _ Hk') in Ck. discriminate.
  - rewrite (Hfree eq_refl _ _ Hj') in Cj. discriminate.
  - rewrite (Hfree eq_refl _ _ Hk') in Ck. discriminate.
Qed.

Lemma exclusive_inside m pl i g g' :
  exclusive m pl -> pl !! i = Some g -> critical g = true ->
  exclusive m (<[i := g']> pl).
Proof.
  intros [Hfree Huniq] Hi Cg. split.
  - intros ->. rewrite (Hfree eq_refl _ _ Hi) in Cg. discriminate.
  - intros j k gj gk Hj Hk Cj Ck.
    destruct (lookup_update _ _ _ _ _ _ Hi Hj) as [[-> _]|[Hnj Hj']];
    destruct (lookup_update _ _ _ _ _ _ Hi Hk) as [[-> _]|[Hnk Hk']]; try done.
    + destruct Hnk. by apply (Huniq _ _ _ _ Hk' Hi).
    + destruct Hnj. by apply (Huniq _ _ _ _ Hj' Hi).
    + by apply (Huniq _ _ _ _ Hj' Hk').
Qed.

Lemma exclusive_unlock m pl i g g' :
  exclusive m pl -> pl !! i = Some g -> critical g = true -> critical g' = false ->
  exclusive false (<[i := g']> pl).
Proof.
  intros [_ Huniq] Hi Cg Cg'.
  assert (forall j gj, <[i := g']> pl !! j = Some gj -> critical gj = false) as Hnone.
  { intros j gj Hj.
    destruct (lookup_update _ _ _ _ _ _ Hi Hj) as [[-> ->]|[Hnj Hj']]; [done|].
    destruct (critical gj) eqn:Cj; [|done].
    destruct Hnj. by apply (Huniq _ _ _ _ Hj' Hi). }
  split; [intros _; exact Hnone|].
  intros j k gj gk Hj Hk Cj Ck. rewrite (Hnone _ _ Hj) in Cj. discriminate.
Qed.

Lemma thread_step_exclusive i s s' :
  thread_step i s = Some s' ->
  exclusive (mutex s) (pool s) -> exclusive (mutex s') (pool s').
Proof.
  intros H X. step_cases H i s g; simpl.
  - by eapply exclusive_lock.
  - eapply exclusive_inside; [done..|]. unfold critical. by rewrite Hpc.
  - eapply exclusive_inside; [done..|]. unfold critical. by rewrite Hpc.
  - eapply exclusive_inside; [done..|]. unfold critical. by rewrite Hpc.
  - eapply exclusive_inside; [done..|]. unfold critical. by rewrite Hpc.
  - eapply exclusive_inside; [done..|]. unfold critical. by rewrite Hpc.
  - eapply exclusive_unlock; [done..| |done]. unfold critical. by rewrite Hpc.
Qed.

Lemma run_exclusive schedule : forall s s',
  run schedule s = Some s' ->
  exclusive (mutex s) (pool s) -> exclusive (mutex s') (pool s').
Proof.
  induction schedule as [|i rest IH]; intros s s' H X; simpl in H.
  - by injection H as <-.
  - destruct (thread_step i s) as [s1|] eqn:E; [|discriminate].
    eapply IH; [exact H|]. by eapply thread_step_exclusive.
Qed.

Lemma start_exclusive tm (w : World Ext) calls :
  exclusive (mutex (start (error := error) tm w calls)) (pool (start (error := error) tm w calls)).
Proof.
  assert (forall i g, pool (start (error := error) tm w calls) !! i = Some g -> critical g = false) as H.
  { simpl. intros i g Hg. apply list_lookup_fmap_Some in Hg as (c & -> & _). done. }
  split; [intros _; exact H|].
  intros i j gi gj Hi _ Ci. rewrite (H _ _ Hi) in Ci. discriminate.
Qed.

Lemma fetching_critical g : fetching g = true -> critical g = true.
Proof. unfold fetching, critical. by destruct (pc g). Qed.

(** In every execution of a burst of calls, whatever the clients and
    the schedule, at most one goroutine is inside
    [generateAccessToken]. *)
Lemma one_fetch_at_a_time tm (w : World Ext) calls schedule s i j gi gj :
  run schedule (start (error := error) tm w calls) = Some s ->
  pool s !! i = Some gi -> pool s !! j = Some gj ->
  fetching gi = true -> fetching gj = true -> i = j.
Proof.
  intros H Hi Hj Fi Fj.
  destruct (run_exclusive _ _ _ H (start_exclusive tm w calls)) as [_ Huniq].
  eapply Huniq; eauto using fetching_critical.
Qed.

End LockFacts.

(** * Goroutines: a burst of calls for one client *)

Section BurstFacts.

Context {Ext error Stream : Type} `{P : Platform Ext error Stream}.

Import Concurrent.

Implicit Types (s : @State Ext error) (g : @Goroutine error)
  (pl : list (@Goroutine error)).

Lemma updated pl i g g' : pl !! i = Some g -> <[i := g']> pl !! i = Some g'.
Proof. intros Hi. apply list_lookup_insert_eq. by eapply lookup_lt_Some. Qed.

(** A step moves one goroutine and leaves the others alone. *)
Lemma thread_step_pool i s s' :
  thread_step i s = Some s' ->
  exists g p, pool s !! i = Some g /\ pool s' = <[i := goto g p]> (pool s).
Proof. intros H. step_cases H i s g; simpl; eauto. Qed.

Lemma thread_step_trace i s s' :
  thread_step i s = Some s' ->
  exists evs, trace (world s') = trace (world s) ++ evs.
Proof.
  intros H. step_cases H i s g; simpl; try (exists []; by rewrite app_nil_r).
  - destruct (cacheLookup_trace _ _ _ _ _ Hl) as (evs & -> & _). by exists evs.
  - destruct (cacheLookup_trace _ _ _ _ _ Hl) as (evs & -> & _). by exists evs.
  - apply generateAccessToken_inv in Hf. destruct Hf; simpl; by eexists.
Qed.

Lemma run_trace schedule : forall s s',
  run schedule s = Some s' ->
  exists evs, trace (world s') = trace (world s) ++ evs.
Proof.
  induction schedule as [|i rest IH]; intros s s' H; simpl in H.
  - injection H as <-. exists []. by rewrite app_nil_r.
  - destruct (thread_step i s) as [s1|] eqn:E; [|discriminate].
    destruct (thread_step_trace _ _ _ E) as (evs1 & E1).
    destruct (IH _ _ H) as (evs2 & E2).
    exists (evs1 ++ evs2). by rewrite E2, E1, app_assoc.
Qed.

Lemma thread_step_length i s s' :
  thread_step i s = Some s' -> length (pool s') = length (pool s).
Proof.
  intros H. destruct (thread_step_pool _ _ _ H) as (g & p & _ & ->).
  apply length_insert.
Qed.

Lemma run_length schedule : forall s s',
  run schedule s = Some s' -> length (pool s') = length (pool s).
Proof.
  induction schedule as [|i rest IH]; intros s s' H; simpl in H.
  - by injection H as <-.
  - destruct (thread_step i s) as [s1|] eqn:E; [|discriminate].
    rewrite (IH _ _ H). by eapply thread_step_length.
Qed.

(** A call that has failed stays failed. *)
Lemma thread_step_failed i s s' j g :
  thread_step i s = Some s' ->
  pool s !! j = Some g -> failed (pc g) ->
  exists g', pool s' !! j = Some g' /\ failed (pc g').
Proof.
  intros H Hj Fg. destruct (decide (j = i)) as [->|Hne].
  - step_cases H i s g0; simpl; assert (g0 = g) as -> by congruence;
      rewrite Hpc in Fg; simpl in Fg; try done;
      (eexists; split;
        [apply list_lookup_insert_eq; by eapply lookup_lt_Some|]); simpl; done.
  - destruct (thread_step_pool _ _ _ H) as (g0 & p & _ & ->).
    exists g. by rewrite list_lookup_insert_ne.
Qed.

Lemma run_failed schedule : forall s s' j g,
  run schedule s = Some s' ->
  pool s !! j = Some g -> failed (pc g) ->
  exists g', pool s' !! j = Some g' /\ failed (pc g').
Proof.
  induction schedule as [|i rest IH]; intros s s' j g H Hj Fg; simpl in H.
  - injection H as <-. eauto.
  - destruct (thread_step i s) as [s1|] eqn:E; [|discriminate].
    destruct (thread_step_failed _ _ _ _ _ E Hj Fg) as (g1 & Hj1 & Fg1).
    eapply IH; eauto.
Qed.

Lemma thread_step_client i s s' cid :
  thread_step i s = Some s' ->
  (forall j g, pool s !! j = Some g -> clientID g = cid) ->
  (forall j g, pool s' !! j = Some g -> clientID g = cid).
Proof.
  intros H Hc j g Hj. destruct (thread_step_pool _ _ _ H) as (g0 & p & Hi & E).
  rewrite E in Hj.
  destruct (lookup_update _ _ _ _ _ _ Hi Hj) as [[-> ->]|[_ Hj']]; eauto.
  simpl. eauto.
Qed.

Section OneClient.

Variables (cid : string) (lo : Time).

Abbreviation phase s :=
  (before_fetch cid lo s \/ exists token, after_fetch cid lo token s).

(** A property of all positions survives the move of one goroutine
    to a position that has it. *)
Lemma positions_update (Q : @Position error -> Prop) pl i g p :
  pl !! i = Some g ->
  (forall j gj, pl !! j = Some gj -> Q (pc gj)) -> Q p ->
  forall j gj, <[i := goto g p]> pl !! j = Some gj -> Q (pc gj).
Proof.
  intros Hi Hall Hp j gj Hj.
  destruct (lookup_update _ _ _ _ _ _ Hi Hj) as [[-> ->]|[_ Hj']]; eauto.
Qed.

(** Holding the lock, goroutine [i] knows that nobody is at line 55
    with a token still to store. *)
Lemma cache_refreshed s i g token :
  exclusive (mutex s) (pool s) ->
  pool s !! i = Some g -> critical g = true ->
  (forall r, pc g <> Fetched r) ->
  after_fetch cid lo token s ->
  tokenCache (manager s) !! cid = Some token.
Proof.
  intros [_ Huniq] Hi Cg Hnf (_ & _ & _ & [Hc|(k & gk & Hk & Hpk)]); [done|].
  assert (k = i) as ->.
  { eapply Huniq; eauto. unfold critical. by rewrite Hpk. }
  assert (gk = g) as -> by congruence. by destruct (Hnf _ Hpk).
Qed.

Lemma burst_step i s s' :
  thread_step i s = Some s' ->
  (forall t, EvNow t ∈ trace (world s') -> lo <= t < lo + time.Hour) ->
  (forall j g, pool s' !! j = Some g -> ~ failed (pc g)) ->
  exclusive (mutex s) (pool s) ->
  (forall j g, pool s !! j = Some g -> clientID g = cid) ->
  phase s -> phase s'.
Proof.
  intros H Hwin Hok X Hcid J.
  step_cases H i s g; simpl in *.
  - (* lock *)
    destruct J as [(Hf & Hst & Hpcs)|(token & Hf & Hexp & Hpcs & Hc)].
    + left. split; [done|]. split; [done|]. simpl.
      apply (positions_update
               (fun p => p = AtLock \/ p = AtLookup \/ p = InFetch)); auto.
    + right. exists token. split; [done|]. split; [done|]. simpl. split.
      * apply (positions_update
                 (fun p => match p with
                           | AtLock | AtLookup => True
                           | InFetch => False
                           | Fetched r => r = Ok token
                           | AtUnlock r | Done r => r = (Value token, None)
                           end)); auto.
      * destruct Hc as [Hc|(k & gk & Hk & Hpk)]; [by left|right].
        exists k, gk. split; [|done].
        rewrite list_lookup_insert_ne; [done|]. intros <-. congruence.
  - (* lookup, hit *)
    assert (critical g = true) as Cg by (unfold critical; by rewrite Hpc).
    pose proof (Hcid _ _ Hg) as Hc. rewrite Hc in Hl.
    destruct (cacheLookup_hit_inv _ _ _ _ _ Hl) as [E Hlt].
    rewrite (cacheLookup_present _ _ _ _ E) in Hl.
    injection Hl as _ <-. simpl in *.
    assert (lo <= (env_Now (ext (world s))).1 < lo + time.Hour) as Ht.
    { apply Hwin. apply elem_of_app. right. apply list_elem_of_singleton. done. }
    destruct J as [(Hf & Hst & Hpcs)|(token' & A)].
    + unfold stale in Hst. rewrite E in Hst. lia.
    + assert (tokenCache (manager s) !! cid = Some token') as E'.
      { eapply cache_refreshed; eauto. intros r. by rewrite Hpc. }
      assert (token' = token) as -> by congruence.
      destruct A as (Hf & Hexp & Hpcs & _).
      right. exists token. split.
      { simpl. rewrite fetches_app, Hf. unfold fetches. simpl. lia. }
      split; [done|]. simpl. split; [|by left].
      apply (positions_update
               (fun p => match p with
                         | AtLock | AtLookup => True
                         | InFetch => False
                         | Fetched r => r = Ok token
                         | AtUnlock r | Done r => r = (Value token, None)
                         end)); auto.
  - (* lookup, miss *)
    assert (critical g = true) as Cg by (unfold critical; by rewrite Hpc).
    pose proof (Hcid _ _ Hg) as Hc. rewrite Hc in Hl.
    destruct J as [(Hf & Hst & Hpcs)|(token & A)].
    + left. destruct (cacheLookup_trace _ _ _ _ _ Hl) as (evs & Htr & Hfe & _).
      split; [simpl; rewrite Htr, fetches_app, Hf, Hfe; done|]. split; [done|]. simpl.
      apply (positions_update
               (fun p => p = AtLock \/ p = AtLookup \/ p = InFetch)); auto.
    + assert (tokenCache (manager s) !! cid = Some token) as E.
      { eapply cache_refreshed; eauto. intros r. by rewrite Hpc. }
      rewrite (cacheLookup_present _ _ _ _ E) in Hl.
      destruct A as (_ & Hexp & _).
      assert (lo <= (env_Now (ext (world s))).1 < lo + time.Hour) as Ht.
      { apply Hwin. injection Hl as _ <-. simpl.
        apply elem_of_app. right. apply list_elem_of_singleton. done. }
      assert (time.Before (env_Now (ext (world s))).1 (ExpiresAt token) = true) as B
        by (apply Before_lt; lia).
      rewrite B in Hl. discriminate.
  - (* the fetch returns *)
    assert (critical g = true) as Cg by (unfold critical; by rewrite Hpc).
    destruct J as [(Hf0 & Hst & Hpcs)|(token & _ & _ & Hpcs & _)].
    2:{ specialize (Hpcs _ _ Hg). by rewrite Hpc in Hpcs. }
    destruct r as [token|err].
    2:{ destruct (Hok i (goto g (Fetched (Err err)))); [|done].
        by eapply updated. }
    right. exists token.
    destruct (generateAccessToken_stamp _ _ _ _ _ _ Hf) as (T & Htr & Hexp).
    split.
    { simpl. rewrite Htr, fetches_app, Hf0. unfold fetches. simpl. lia. }
    split.
    { assert (lo <= T < lo + time.Hour) as HT; [|lia].
      apply Hwin. rewrite Htr. apply elem_of_app. right.
      do 2 apply list_elem_of_further. apply list_elem_of_singleton. done. }
    simpl. split.
    + intros j gj Hj.
      destruct (lookup_update _ _ _ _ _ _ Hg Hj) as [[-> ->]|[Hne Hj']]; [done|].
      destruct (Hpcs _ _ Hj') as [->|[->|Hpj]]; [done..|].
      destruct Hne. destruct X as [_ Huniq]. eapply Huniq; eauto.
      unfold critical. by rewrite Hpj.
    + right. exists i, (goto g (Fetched (Ok token))). split; [|done].
      by eapply updated.
  - (* store *)
    destruct J as [(_ & _ & Hpcs)|(token & Hf & Hexp & Hpcs & _)].
    { destruct (Hpcs _ _ Hg) as [?|[?|?]]; congruence. }
    pose proof (Hpcs _ _ Hg) as Hr. rewrite Hpc in Hr. injection Hr as ->.
    right. exists token. split; [done|]. split; [done|]. simpl. split.
    + apply (positions_update
               (fun p => match p with
                         | AtLock | AtLookup => True
                         | InFetch => False
                         | Fetched r => r = Ok token
                         | AtUnlock r | Done r => r = (Value token, None)
                         end)); auto.
    + left. rewrite (Hcid _ _ Hg). apply lookup_insert_eq.
  - (* the fetch has failed *)
    destruct (Hok i (goto g (AtUnlock ("", Some err)))); [|done].
    by eapply updated.
  - (* unlock *)
    destruct J as [(_ & _ & Hpcs)|(token & Hf & Hexp & Hpcs & Hc)].
    { destruct (Hpcs _ _ Hg) as [?|[?|?]]; congruence. }
    pose proof (Hpcs _ _ Hg) as Hr. rewrite Hpc in Hr. subst r.
    right. exists token. split; [done|]. split; [done|]. simpl. split.
    + apply (positions_update
               (fun p => match p with
                         | AtLock | AtLookup => True
                         | InFetch => False
                         | Fetched r => r = Ok token
                         | AtUnlock r | Done r => r = (Value token, None)
                         end)); auto.
    + destruct Hc as [Hc|(k & gk & Hk & Hpk)]; [by left|right].
      exists k, gk. split; [|done].
      rewrite list_lookup_insert_ne; [done|]. intros <-. congruence.
Qed.

Lemma burst_run schedule : forall s final,
  run schedule s = Some final ->
  (forall t, EvNow t ∈ trace (world final) -> lo <= t < lo + time.Hour) ->
  (forall j g, pool final !! j = Some g -> ~ failed (pc g)) ->
  exclusive (mutex s) (pool s) ->
  (forall j g, pool s !! j = Some g -> clientID g = cid) ->
  phase s -> phase final.
Proof.
  induction schedule as [|i rest IH]; intros s final H Hwin Hok X Hcid J;
    simpl in H.
  - by injection H as <-.
  - destruct (thread_step i s) as [s1|] eqn:E; [|discriminate].
    eapply IH; eauto using thread_step_exclusive, thread_step_client.
    eapply burst_step; eauto.
    + intros t Ht. apply Hwin.
      destruct (run_trace _ _ _ H) as (evs & ->). apply elem_of_app. by left.
    + intros j g Hj Fg.
      destruct (run_failed _ _ _ _ _ H Hj Fg) as (g' & Hj' & Fg').
      by apply (Hok _ _ Hj').
Qed.

End OneClient.

End BurstFacts.

(** * Goroutines: every execution is a serial one *)

Section LinearFacts.

Context {Ext error Stream : Type} `{P : Platform Ext error Stream}.

Import Concurrent.

Implicit Types (s : @State Ext error) (g : @Goroutine error)
  (pl : list (@Goroutine error)).

Lemma serve_snoc tm l c (w : World Ext) :
  serve (error := error) tm (l ++ [c]) w =
    let '((rs, tm1), w1) := serve tm l w in
    let '((r, tm2), w2) := GetAccessToken tm1 c.1.1 c.1.2 c.2 w1 in
    ((rs ++ [r], tm2), w2).
Proof.
  revert tm w. induction l as [|c0 l IH]; intros tm w; simpl; unfold bind, ret.
  - destruct (GetAccessToken tm c.1.1 c.1.2 c.2 w) as [[r tm2] w2]. reflexivity.
  - destruct (GetAccessToken tm c0.1.1 c0.1.2 c0.2 w) as [[r0 tm1] w1]. simpl.
    rewrite IH. destruct (serve tm1 l w1) as [[rs tm2] w2]. simpl.
    destruct (GetAccessToken tm2 c.1.1 c.1.2 c.2 w2) as [[r tm3] w3]. reflexivity.
Qed.

Lemma in_call_critical g : in_call (pc g) = true -> critical g = true.
Proof. unfold critical. by destruct (pc g). Qed.

Lemma progress_outside tmk (wk : World Ext) s g :
  critical g = false -> progress tmk wk s g.
Proof. unfold critical, progress. by destruct (pc g). Qed.

(** In every step the goroutines that do not move are outside the
    critical section. *)
Lemma thread_step_others i s s' :
  thread_step i s = Some s' ->
  exclusive (mutex s) (pool s) ->
  forall j gj, pool s !! j = Some gj -> j <> i -> critical gj = false.
Proof.
  intros H [Hfree Huniq] j gj Hj Hne.
  destruct (critical gj) eqn:Cj; [|done]. destruct Hne.
  step_cases H i s g;
    try (eapply Huniq; [exact Hj|exact Hg|exact Cj|unfold critical; by rewrite Hpc]).
  rewrite (Hfree eq_refl _ _ Hj) in Cj. discriminate.
Qed.

Lemma Forall2_pool_update {B} (R : Goroutine -> B -> Prop) pl i g p order (bs : list B) :
  pl !! i = Some g ->
  (forall b, R g b -> R (goto g p) b) ->
  Forall2 (fun j b => exists gj, pl !! j = Some gj /\ R gj b) order bs ->
  Forall2 (fun j b => exists gj, <[i := goto g p]> pl !! j = Some gj /\ R gj b) order bs.
Proof.
  intros Hi HR HF. eapply Forall2_impl; [exact HF|]. intros j b (gj & Hj & Hb).
  destruct (decide (j = i)) as [->|Hne].
  - exists (goto g p). split; [by eapply updated|].
    apply HR. congruence.
  - exists gj. by rewrite list_lookup_insert_ne.
Qed.

Lemma order_finished pl order (rs : list (string * option error)) i :
  Forall2 (fun j r => exists gj, pl !! j = Some gj /\ finished (pc gj) = Some r) order rs ->
  i ∈ order ->
  exists g r, pl !! i = Some g /\ finished (pc g) = Some r.
Proof.
  intros HF Hi. apply list_elem_of_lookup_1 in Hi as (k & Hk).
  destruct (Forall2_lookup_l _ _ _ _ _ HF Hk) as (r & _ & g & Hg & Hr). eauto.
Qed.

(** A step that does not set the return values keeps the order. *)
Lemma linearized_keep tm0 (w0 : World Ext) s order i g p m' tm' w' :
  pool s !! i = Some g ->
  (forall j gj, pool s !! j = Some gj -> j <> i -> critical gj = false) ->
  linearized tm0 w0 s order ->
  (forall r, finished (pc g) = Some r -> finished p = Some r) ->
  (finished (pc g) = None -> finished p = None) ->
  (forall tmk wk,
     progress tmk wk s g ->
     (in_call (pc g) = false -> manager s = tmk /\ world s = wk) ->
     progress tmk wk
       {| mutex := m'; manager := tm'; world := w';
          pool := <[i := goto g p]> (pool s) |} (goto g p) /\
     (in_call p = false -> tm' = tmk /\ w' = wk)) ->
  linearized tm0 w0
    {| mutex := m'; manager := tm'; world := w'; pool := <[i := goto g p]> (pool s) |}
    order.
Proof.
  intros Hg Hoth (ordered & rs & tmk & wk & Hnd & Hin & Hargs & Hres & Hserve & Hprog & Hidle)
    Hfin Hnot Hstep.
  destruct (Hstep tmk wk (Hprog _ _ Hg)) as [Hp' Hidle'].
  { intros Hic. apply Hidle. intros j gj Hj.
    destruct (decide (j = i)) as [->|Hne]; [congruence|].
    destruct (in_call (pc gj)) eqn:Cj; [|done].
    apply in_call_critical in Cj. by rewrite (Hoth _ _ Hj Hne) in Cj. }
  exists ordered, rs, tmk, wk. simpl.
  split_and!; [done| | | |done| |].
  - intros j gj Hj Hf.
    destruct (lookup_update _ _ _ _ _ _ Hg Hj) as [[-> ->]|[_ Hj']]; [|by eauto].
    apply (Hin _ _ Hg). simpl in Hf.
    destruct (finished (pc g)) eqn:E; [done|]. rewrite (Hnot eq_refl) in Hf.
    by destruct Hf.
  - by apply (Forall2_pool_update (fun gj c => args gj = c)).
  - by apply (Forall2_pool_update (fun gj r => finished (pc gj) = Some r)).
  - intros j gj Hj.
    destruct (lookup_update _ _ _ _ _ _ Hg Hj) as [[-> ->]|[Hne Hj']]; [done|].
    apply progress_outside. by eapply Hoth.
  - intros Hall. apply Hidle'. apply (Hall i (goto g p)). by eapply updated.
Qed.

(** A step that sets the return values puts the call at the end of
    the order. *)
Lemma linearized_finish tm0 (w0 : World Ext) s order i g r m' tm' w' :
  pool s !! i = Some g ->
  (forall j gj, pool s !! j = Some gj -> j <> i -> critical gj = false) ->
  linearized tm0 w0 s order ->
  finished (pc g) = None ->
  (forall tmk wk,
     progress tmk wk s g ->
     GetAccessToken tmk (clientID g) (clientSecret g) (uaaUrl g) wk = ((r, tm'), w')) ->
  linearized tm0 w0
    {| mutex := m'; manager := tm'; world := w';
       pool := <[i := goto g (AtUnlock r)]> (pool s) |}
    (order ++ [i]).
Proof.
  intros Hg Hoth (ordered & rs & tmk & wk & Hnd & Hin & Hargs & Hres & Hserve & Hprog & Hidle)
    Hnot Hcall.
  specialize (Hcall tmk wk (Hprog _ _ Hg)).
  exists (ordered ++ [args g]), (rs ++ [r]), tm', w'. simpl.
  split_and!.
  - apply NoDup_app. split; [done|]. split; [|apply NoDup_singleton].
    intros j Hj Hji. apply list_elem_of_singleton in Hji as ->.
    destruct (order_finished _ _ _ _ Hres Hj) as (g' & r' & Hg' & Hr').
    congruence.
  - intros j gj Hj Hf. apply elem_of_app.
    destruct (lookup_update _ _ _ _ _ _ Hg Hj) as [[-> ->]|[_ Hj']].
    + right. by apply list_elem_of_singleton.
    + left. eauto.
  - apply Forall2_app.
    + by apply (Forall2_pool_update (fun gj c => args gj = c)).
    + constructor; [|constructor].
      eexists. split; [by eapply updated|done].
  - apply Forall2_app.
    + apply (Forall2_pool_update (fun gj r => finished (pc gj) = Some r));
        [done| |done].
      intros b Hb. congruence.
    + constructor; [|constructor].
      eexists. split; [by eapply updated|done].
  - rewrite serve_snoc, Hserve. simpl. by rewrite Hcall.
  - intros j gj Hj.
    destruct (lookup_update _ _ _ _ _ _ Hg Hj) as [[-> ->]|[Hne Hj']]; [done|].
    apply progress_outside. by eapply Hoth.
  - done.
Qed.

Lemma thread_step_linearized tm0 (w0 : World Ext) i s s' order :
  thread_step i s = Some s' ->
  exclusive (mutex s) (pool s) ->
  linearized tm0 w0 s order ->
  exists order', linearized tm0 w0 s' order'.
Proof.
  intros H X L. pose proof (thread_step_others _ _ _ H X) as Hoth.
  step_cases H i s g.
  - (* lock *)
    exists order. eapply linearized_keep; eauto; rewrite Hpc; simpl; try done.
    intros tmk wk _ Hidle. specialize (Hidle eq_refl). split; [|done].
    unfold progress. simpl. done.
  - (* lookup, hit *)
    eexists. eapply linearized_finish; eauto; [by rewrite Hpc|].
    intros tmk wk Hp. unfold progress in Hp. rewrite Hpc in Hp.
    destruct Hp as [<- <-]. by apply GetAccessToken_after_hit.
  - (* lookup, miss *)
    exists order. eapply linearized_keep; eauto; rewrite Hpc; simpl; try done.
    intros tmk wk Hp _. unfold progress in Hp. rewrite Hpc in Hp.
    destruct Hp as [<- <-]. split; [|done]. unfold progress. simpl. done.
  - (* the fetch returns *)
    exists order. eapply linearized_keep; eauto; rewrite Hpc; simpl; try done.
    intros tmk wk Hp _. unfold progress in Hp. rewrite Hpc in Hp.
    destruct Hp as [<- Hl]. split; [|done]. unfold progress. simpl.
    split; [done|]. eauto.
  - (* store *)
    eexists. eapply linearized_finish; eauto; [by rewrite Hpc|].
    intros tmk wk Hp. unfold progress in Hp. rewrite Hpc in Hp.
    destruct Hp as (<- & w & Hl & Hf).
    by rewrite (GetAccessToken_after_miss _ _ _ _ _ _ Hl), Hf.
  - (* the fetch has failed *)
    eexists. eapply linearized_finish; eauto; [by rewrite Hpc|].
    intros tmk wk Hp. unfold progress in Hp. rewrite Hpc in Hp.
    destruct Hp as (<- & w & Hl & Hf).
    by rewrite (GetAccessToken_after_miss _ _ _ _ _ _ Hl), Hf.
  - (* unlock *)
    exists order. eapply linearized_keep; eauto; rewrite Hpc; simpl; done.
Qed.

Lemma run_linearized tm0 (w0 : World Ext) schedule : forall s s' order,
  run schedule s = Some s' ->
  exclusive (mutex s) (pool s) ->
  linearized tm0 w0 s order ->
  exists order', linearized tm0 w0 s' order'.
Proof.
  induction schedule as [|i rest IH]; intros s s' order H X L; simpl in H.
  - injection H as <-. eauto.
  - destruct (thread_step i s) as [s1|] eqn:E; [|discriminate].
    destruct (thread_step_linearized _ _ _ _ _ _ E X L) as (order1 & L1).
    eapply IH; eauto using thread_step_exclusive.
Qed.

Lemma thread_step_args i s s' (calls : list (string * string * string)) :
  thread_step i s = Some s' ->
  (forall j g, pool s !! j = Some g -> calls !! j = Some (args g)) ->
  (forall j g, pool s' !! j = Some g -> calls !! j = Some (args g)).
Proof.
  intros H Hc j g Hj. destruct (thread_step_pool _ _ _ H) as (g0 & p & Hi & E).
  rewrite E in Hj.
  destruct (lookup_update _ _ _ _ _ _ Hi Hj) as [[-> ->]|[_ Hj']]; eauto.
  apply (Hc _ _ Hi).
Qed.

Lemma run_args schedule (calls : list (string * string * string)) : forall s s',
  run schedule s = Some s' ->
  (forall j g, pool s !! j = Some g -> calls !! j = Some (args g)) ->
  (forall j g, pool s' !! j = Some g -> calls !! j = Some (args g)).
Proof.
  induction schedule as [|i rest IH]; intros s s' H Hc; simpl in H.
  - by injection H as <-.
  - destruct (thread_step i s) as [s1|] eqn:E; [|discriminate].
    eapply IH; eauto using thread_step_args.
Qed.

(** X10 (serializability): Every complete execution of concurrent calls
    is a serial one: there is an order of the calls such that serving
    them one at a time in that order, with the sequential
    [GetAccessToken], gives every caller the values it got, and leaves
    the same manager and the same world. *)
Theorem executions_are_serial tm (w : World Ext) calls schedule
    (s : @State Ext error) :
  run schedule (start tm w calls) = Some s ->
  (forall i g, pool s !! i = Some g -> is_Some (returned g)) ->
  exists order ordered rs,
    order ≡ₚ seq 0 (length calls) /\
    Forall2 (fun i c => calls !! i = Some c) order ordered /\
    serve tm ordered w = ((rs, manager s), world s) /\
    Forall2 (fun i r => exists g, pool s !! i = Some g /\ pc g = Done r) order rs.
Proof.
  intros Hrun Hdone.
  assert (linearized tm w (start (error := error) tm w calls) []) as L0.
  { exists [], [], tm, w. simpl.
    split; [apply NoDup_nil_2|]. split.
    { intros i g Hi. apply list_lookup_fmap_Some in Hi as (c & -> & _).
      simpl. by intros [? ?]. }
    split; [constructor|]. split; [constructor|]. split; [done|].
    split; [|done].
    intros i g Hi. apply list_lookup_fmap_Some in Hi as (c & -> & _). done. }
  destruct (run_linearized _ _ _ _ _ _ Hrun (start_exclusive tm w calls) L0)
    as (order & ordered & rs & tmk & wk & Hnd & Hin & Hargs & Hres & Hserve & _ & Hidle).
  assert (forall j g, pool s !! j = Some g -> calls !! j = Some (args g)) as Hcalls.
  { eapply run_args; [exact Hrun|]. simpl. intros j g Hj.
    apply list_lookup_fmap_Some in Hj as (c & -> & Hc).
    by destruct c as [[c1 c2] c3]. }
  assert (forall i g, pool s !! i = Some g -> exists r, pc g = Done r) as Hdone'.
  { intros i g Hi. destruct (Hdone _ _ Hi) as [r Hr]. unfold returned in Hr.
    destruct (pc g); try discriminate. eauto. }
  destruct Hidle as [<- <-].
  { intros i g Hi. destruct (Hdone' _ _ Hi) as (r & ->). done. }
  exists order, ordered, rs. split; [|split; [|split; [done|]]].
  - apply NoDup_Permutation; [done|apply NoDup_seq|].
    intros i. rewrite elem_of_seq. split.
    + intros Hi. destruct (order_finished _ _ _ _ Hres Hi) as (g & r & Hg & _).
      apply lookup_lt_Some in Hg. rewrite (run_length _ _ _ Hrun) in Hg.
      simpl in Hg. rewrite length_fmap in Hg. lia.
    + intros [_ Hi].
      assert (i < length (pool s))%nat as Hlt.
      { rewrite (run_length _ _ _ Hrun). simpl. rewrite length_fmap. lia. }
      apply lookup_lt_is_Some in Hlt as (g & Hg).
      apply (Hin _ _ Hg). destruct (Hdone' _ _ Hg) as (r & ->). by eexists.
  - eapply Forall2_impl; [exact Hargs|]. intros i c (g & Hg & <-). eauto.
  - eapply Forall2_impl; [exact Hres|]. intros i r (g & Hg & Hr).
    exists g. split; [done|]. destruct (Hdone' _ _ Hg) as (r' & Hr').
    rewrite Hr' in Hr. simpl in Hr. congruence.
Qed.

End LinearFacts.

(** * Goroutines: serialization *)

Section SerializationFacts.

Context {Ext error Stream : Type} `{P : Platform Ext error Stream}.

Import Concurrent.

(** A goroutine that runs alone does what the sequential
    [GetAccessToken] does: same return values, same manager, same
    world, and the lock is free again. *)
Lemma solo_call tm (w : World Ext) c secret url :
  exists schedule s,
    run schedule (start (error := error) tm w [(c, secret, url)]) = Some s /\
    mutex s = false /\
    pool s = [mkGoroutine c secret url (Done (GetAccessToken tm c secret url w).1.1)] /\
    manager s = (GetAccessToken tm c secret url w).1.2 /\
    world s = (GetAccessToken tm c secret url w).2.
Proof.
  destruct (cacheLookup tm c w) as [[token|] w0] eqn:L.
  - exists [0; 0; 0]%nat. eexists. split.
    + unfold run, thread_step. simpl. rewrite L. simpl. reflexivity.
    + rewrite (GetAccessToken_after_hit _ _ _ _ _ _ _ L). done.
  - destruct (generateAccessToken c secret url w0) as [[newToken|err] w1] eqn:G.
    + exists [0; 0; 0; 0; 0]%nat. eexists. split.
      * unfold run, thread_step. simpl. rewrite L. simpl. rewrite G. simpl.
        reflexivity.
      * rewrite (GetAccessToken_after_miss _ _ _ _ _ _ L), G. done.
    + exists [0; 0; 0; 0; 0]%nat. eexists. split.
      * unfold run, thread_step. simpl. rewrite L. simpl. rewrite G. simpl.
        reflexivity.
      * rewrite (GetAccessToken_after_miss _ _ _ _ _ _ L), G. done.
Qed.

(** C7, as amended (serialization of fetches): in every execution of
    concurrent calls, for the same or for different clients, at most one
    goroutine is inside the fetcher at any moment.  And in a complete
    execution of a burst of calls for one client whose entry is absent
    or expired, in which every reading of the clock falls within one
    hour from the start of the burst and no call returns an error,
    there is exactly one fetch: every caller returns the value of the
    one token fetched, which is the token the cache holds at the
    end. *)
Theorem fetches_are_serialized :
  (forall tm (w : World Ext) calls schedule (s : @State Ext error) i j gi gj,
     run schedule (start tm w calls) = Some s ->
     pool s !! i = Some gi -> pool s !! j = Some gj ->
     fetching gi = true -> fetching gj = true -> i = j) /\
  (forall tm (e : Ext) calls schedule (s : @State Ext error) cid lo,
     calls <> [] ->
     (forall c, c ∈ calls -> c.1.1 = cid) ->
     stale tm cid lo ->
     run schedule (start tm {| ext := e; trace := [] |} calls) = Some s ->
     (forall t, EvNow t ∈ trace (world s) -> lo <= t < lo + time.Hour) ->
     (forall i g, pool s !! i = Some g -> exists v, pc g = Done (v, None)) ->
     fetches (trace (world s)) = 1%nat /\
     exists token,
       tokenCache (manager s) !! cid = Some token /\
       forall i g, pool s !! i = Some g -> pc g = Done (Value token, None)).
Proof.
  split.
  { intros. by eapply one_fetch_at_a_time. }
  intros tm e calls schedule s cid lo Hne Hcid Hst Hrun Hwin Hok.
  assert (before_fetch cid lo s \/ exists token, after_fetch cid lo token s) as J.
  { eapply burst_run; [exact Hrun|exact Hwin| | | |].
    - intros j g Hj Fg. destruct (Hok _ _ Hj) as (v & Hv). by rewrite Hv in Fg.
    - apply start_exclusive.
    - simpl. intros j g Hj. apply list_lookup_fmap_Some in Hj as (c & -> & Hc).
      simpl. apply Hcid. by eapply list_elem_of_lookup_2.
    - left. split; [done|]. split; [done|]. simpl. intros i g Hi.
      apply list_lookup_fmap_Some in Hi as (c & -> & _). by left. }
  assert (exists g0, pool s !! 0%nat = Some g0) as (g0 & Hg0).
  { apply lookup_lt_is_Some. rewrite (run_length _ _ _ Hrun). simpl.
    rewrite length_fmap. destruct calls; [done|simpl; lia]. }
  destruct (Hok _ _ Hg0) as (v0 & Hv0).
  destruct J as [(_ & _ & Hpcs)|(token & Hf & _ & Hpcs & Hc)].
  { destruct (Hpcs _ _ Hg0) as [?|[?|?]]; congruence. }
  split; [done|]. exists token. split.
  - destruct Hc as [Hc|(k & gk & Hk & Hpk)]; [done|].
    destruct (Hok _ _ Hk) as (v & Hv). congruence.
  - intros i g Hi. destruct (Hok _ _ Hi) as (v & Hv).
    specialize (Hpcs _ _ Hi). rewrite Hv in Hpcs. by rewrite Hv, Hpcs.
Qed.

End SerializationFacts.

(** * Beyond the contract: one call *)

Section CallFacts.

Context {Ext error Stream : Type} `{P : Platform Ext error Stream}.

Implicit Types (tm : AccessTokenManager) (w : World Ext).

(** The two ways through [GetAccessToken]: served from the cache after
    one reading of the clock, or a fetch along one of its paths. *)
Lemma GetAccessToken_cases tm c secret url w :
  (exists token,
     tokenCache tm !! c = Some token /\
     (env_Now (ext w)).1 < ExpiresAt token /\
     GetAccessToken tm c secret url w =
       ((Value token, None, tm),
        {| ext := (env_Now (ext w)).2;
           trace := trace w ++ [EvNow (env_Now (ext w)).1] |})) \/
  (exists w0 r w' evs0,
     cacheLookup tm c w = (None, w0) /\
     trace w0 = trace w ++ evs0 /\ fetches evs0 = 0%nat /\ sent evs0 = [] /\
     fetch_path c secret url w0 r w' /\
     GetAccessToken tm c secret url w =
       (match r with
        | Ok newToken =>
            (Value newToken, None,
             {| tokenCache := <[c := newToken]> (tokenCache tm) |})
        | Err err => ("", Some err, tm)
        end, w')).
Proof.
  destruct (cacheLookup tm c w) as [[token|] w0] eqn:L.
  - left. exists token. destruct (cacheLookup_hit_inv _ _ _ _ _ L) as [E Hlt].
    split; [done|]. split; [done|]. by apply GetAccessToken_served.
  - right. destruct (cacheLookup_trace _ _ _ _ _ L) as (evs0 & Htr & Hf & Hs & _).
    pose proof (generateAccessToken_path c secret url w0) as F.
    rewrite (GetAccessToken_after_miss _ _ _ _ _ _ L).
    destruct (generateAccessToken c secret url w0) as [r w'].
    exists w0, r, w', evs0. repeat (split; [done|]). by destruct r.
Qed.

Lemma Hour_positive : 0 < time.Hour.
Proof. reflexivity. Qed.

(** X1 (live entry): A call that returns a token returns the value of
    the entry the cache holds for the client when the call ends, and
    that entry expires strictly after the last reading of the clock the
    call made: no call hands out a token it has seen expired. *)
Theorem GetAccessToken_returns_live_entry tm c secret url w v tm' w' :
  GetAccessToken tm c secret url w = ((v, None, tm'), w') ->
  exists token t pre,
    tokenCache tm' !! c = Some token /\
    Value token = v /\
    trace w' = pre ++ [EvNow t] /\
    t < ExpiresAt token.
Proof.
  intros H.
  destruct (GetAccessToken_cases tm c secret url w)
    as [(token & E & Hlt & G)|(w0 & r & w1 & evs0 & L & Htr & _ & _ & F & G)];
    rewrite G in H.
  - injection H as <- <- <-. exists token, (env_Now (ext w)).1, (trace w). done.
  - destruct F as [| | | |resp e1 body e2 tokenResp T e3 HU HD HR HJ HN];
      try discriminate.
    injection H as <- <- <-. eexists _, T, _. simpl.
    split; [apply lookup_insert_eq|]. split; [done|]. split.
    + instantiate (1 := trace w0 ++ [EvFetch c secret url;
                                      EvSend (tokenRequest c secret url)]).
      by rewrite <- app_assoc.
    + pose proof Hour_positive. simpl. lia.
Qed.

(** X2 (key is the client identifier): The cache is keyed by the client
    identifier alone: once a call has returned a token, a later call for
    the same client, with any secret and any endpoint, made while the
    clock reads less than the expiry of the cached entry, returns the
    same token and sends nothing. *)
Theorem GetAccessToken_ignores_secret_on_hit tm c secret url w v tm1 w1 :
  GetAccessToken tm c secret url w = ((v, None, tm1), w1) ->
  exists token,
    tokenCache tm1 !! c = Some token /\
    forall secret2 url2 w2,
      (env_Now (ext w2)).1 < ExpiresAt token ->
      let out := GetAccessToken tm1 c secret2 url2 w2 in
      out.1 = (v, None, tm1) /\
      sent (trace out.2) = sent (trace w2) /\
      fetches (trace out.2) = fetches (trace w2).
Proof.
  intros H.
  assert (exists token, tokenCache tm1 !! c = Some token /\ Value token = v)
    as (token & E & <-).
  { destruct (GetAccessToken_cases tm c secret url w)
      as [(token & E & Hlt & G)|(w0 & r & w' & evs0 & L & _ & _ & _ & F & G)];
      rewrite G in H.
    - injection H as <- <- <-. eauto.
    - destruct r as [newToken|err]; [|discriminate].
      injection H as <- <- <-. eexists. split; [apply lookup_insert_eq|done]. }
  exists token. split; [done|]. intros secret2 url2 w2 Hlt out. unfold out.
  rewrite (GetAccessToken_served _ _ _ _ _ _ E Hlt). simpl.
  rewrite sent_app, fetches_app. simpl.
  split; [done|]. split; [by rewrite app_nil_r|unfold fetches; simpl; lia].
Qed.

(** What one call adds to the trace and to the cache: at most one fetch,
    at most one call of [client.Do] and only by a fetch, only with the
    request of this call; only the key of this call can appear in the
    cache, and the token stored is stamped with a reading of the clock
    made by this call. *)
Lemma GetAccessToken_account tm c secret url w :
  let out := GetAccessToken tm c secret url w in
  exists evs,
    trace out.2 = trace w ++ evs /\
    (fetches evs <= 1)%nat /\
    (length (sent evs) <= fetches evs)%nat /\
    (forall req, req ∈ sent evs -> req = tokenRequest c secret url) /\
    (out.1.1.2 <> None -> fetches evs = 1%nat) /\
    dom (tokenCache out.1.2) =
      dom (tokenCache tm) ∪ (if out.1.1.2 is None then {[ c ]} else ∅) /\
    (forall k token, tokenCache out.1.2 !! k = Some token ->
       tokenCache tm !! k = Some token \/
       exists T, EvNow T ∈ evs /\ ExpiresAt token = T + time.Hour).
Proof.
  intros out. unfold out.
  destruct (GetAccessToken_cases tm c secret url w)
    as [(token & E & Hlt & G)|(w0 & r & w' & evs0 & L & Htr & Hf0 & Hs0 & F & G)];
    rewrite G; simpl.
  - eexists. split; [reflexivity|]. unfold fetches. simpl.
    split; [lia|]. split; [lia|]. split; [by intros req Hreq%elem_of_nil|].
    split; [done|]. split; [|by left].
    apply elem_of_dom_2 in E. symmetry. rewrite union_comm_L.
    apply subseteq_union_1_L. by apply singleton_subseteq_l.
  - assert (forall l, trace w0 ++ l = trace w ++ (evs0 ++ l)) as Happ.
    { intros l. by rewrite Htr, <- app_assoc. }
    destruct F as [err HU|err e1 HU HD|err resp e1 e2 HU HD HR
                  |err resp e1 body e2 HU HD HR HJ
                  |resp e1 body e2 tokenResp T e3 HU HD HR HJ HN]; simpl;
      (eexists; split; [apply Happ|]);
      rewrite fetches_app, sent_app, Hf0, Hs0; unfold fetches; simpl;
      (split; [lia|]); (split; [lia|]).
    + split; [by intros req Hreq%elem_of_nil|]. split; [done|].
      split; [by rewrite union_empty_r_L|by left].
    + split; [by intros req Hreq%list_elem_of_singleton|]. split; [done|].
      split; [by rewrite union_empty_r_L|by left].
    + split; [by intros req Hreq%list_elem_of_singleton|]. split; [done|].
      split; [by rewrite union_empty_r_L|by left].
    + split; [by intros req Hreq%list_elem_of_singleton|]. split; [done|].
      split; [by rewrite union_empty_r_L|by left].
    + split; [by intros req Hreq%list_elem_of_singleton|]. split; [done|].
      split; [rewrite dom_insert_L; apply union_comm_L|].
      intros k token Hk. destruct (decide (k = c)) as [->|Hne].
      * rewrite lookup_insert_eq in Hk. injection Hk as <-. right. exists T.
        split; [|done]. apply elem_of_app. right.
        do 2 apply list_elem_of_further. by apply list_elem_of_singleton.
      * rewrite lookup_insert_ne in Hk by done. by left.
Qed.

(** X14 (failing fast): A fetch that fails stops where it fails: it
    stamps no token and never reads the clock, it has called
    [client.Do] at most once, and when it is [http.NewRequest] that
    refuses the URL the fetch returns that very error, does not call
    [client.Do] and leaves the outside world as it was. *)
Theorem generateAccessToken_fails_fast c secret url w0 err w' :
  generateAccessToken c secret url w0 = (Err err, w') ->
  exists evs,
    trace w' = trace w0 ++ evs /\
    (forall t, EvNow t ∉ evs) /\
    (length (sent evs) <= 1)%nat /\
    (forall e,
       env_ParseURL (url +:+ "/oauth/token?grant_type=client_credentials") = Some e ->
       err = e /\ ext w' = ext w0 /\ sent evs = []).
Proof.
  intros G. apply generateAccessToken_inv in G.
  inversion G as [e HU|e e1 HU HD|e resp e1 e2 HU HD HR|e resp e1 body e2 HU HD HR HJ|];
    subst; simpl; eexists; (split; [reflexivity|]); simpl;
    (split; [intros t Ht; repeat (apply elem_of_cons in Ht as [Ht|Ht];
                                  [discriminate Ht|]);
             by apply elem_of_nil in Ht|]);
    (split; [lia|]); intros e' He'; rewrite HU in He'; try discriminate He'.
  by injection He' as <-.
Qed.

End CallFacts.

(** * Beyond the contract: calls served one after the other *)

Section SerialFacts.

Context {Ext error Stream : Type} `{P : Platform Ext error Stream}.

Import Concurrent.

Implicit Types (tm : AccessTokenManager) (w : World Ext).
Implicit Types (calls : list (string * string * string)).

Lemma serve_cons tm c calls w :
  serve (error := error) tm (c :: calls) w =
    let '((r, tm1), w1) := GetAccessToken tm c.1.1 c.1.2 c.2 w in
    let '((rs, tm2), w2) := serve tm1 calls w1 in
    ((r :: rs, tm2), w2).
Proof.
  simpl. unfold bind, ret.
  destruct (GetAccessToken tm c.1.1 c.1.2 c.2 w) as [[r tm1] w1]. simpl.
  by destruct (serve tm1 calls w1) as [[rs tm2] w2].
Qed.

Lemma stamped_call tm c secret url w :
  stamped tm (trace w) ->
  stamped (GetAccessToken tm c secret url w).1.2
          (trace (GetAccessToken tm c secret url w).2).
Proof.
  intros Hst k token Hk.
  destruct (GetAccessToken_account tm c secret url w)
    as (evs & -> & _ & _ & _ & _ & _ & Hnew).
  destruct (Hnew _ _ Hk) as [Hold|(T & HT & Hexp)].
  - destruct (Hst _ _ Hold) as (T & HT & Hexp). exists T.
    split; [|done]. apply elem_of_app. by left.
  - exists T. split; [|done]. apply elem_of_app. by right.
Qed.

(** The account of a whole run. *)
Lemma serve_account calls : forall tm w,
  let out := serve (error := error) tm calls w in
  exists evs,
    trace out.2 = trace w ++ evs /\
    length out.1.1 = length calls /\
    (fetches evs <= length calls)%nat /\
    (length (sent evs) <= fetches evs)%nat /\
    (errors out.1.1 <= fetches evs)%nat /\
    (forall req, req ∈ sent evs ->
       exists c, c ∈ calls /\ req = tokenRequest c.1.1 c.1.2 c.2) /\
    dom (tokenCache out.1.2) = dom (tokenCache tm) ∪ clients_served calls out.1.1 /\
    (stamped tm (trace w) -> stamped out.1.2 (trace out.2)).
Proof.
  induction calls as [|c calls IH]; intros tm w out; unfold out.
  - exists []. simpl. rewrite app_nil_r. unfold fetches, errors. simpl.
    split; [done|]. split; [done|]. split; [lia|]. split; [lia|]. split; [lia|].
    split.
    + by intros req Hreq%elem_of_nil.
    + split; [by rewrite union_empty_r_L|done].
  - rewrite serve_cons.
    destruct (GetAccessToken_account tm c.1.1 c.1.2 c.2 w)
      as (evs1 & Htr1 & Hf1 & Hs1 & Hreq1 & Herr1 & Hdom1 & _).
    pose proof (stamped_call tm c.1.1 c.1.2 c.2 w) as Hst1.
    destruct (GetAccessToken tm c.1.1 c.1.2 c.2 w) as [[[v e] tm1] w1].
    simpl in *.
    destruct (IH tm1 w1) as (evs2 & Htr2 & Hlen2 & Hf2 & Hs2 & Herr2 & Hreq2 & Hdom2 & Hst2).
    destruct (serve tm1 calls w1) as [[rs tm2] w2]. simpl in *.
    exists (evs1 ++ evs2).
    rewrite fetches_app, sent_app, length_app.
    split; [by rewrite Htr2, Htr1, app_assoc|].
    split; [lia|]. split; [lia|]. split; [lia|]. split.
    { unfold errors in *. rewrite filter_cons. simpl. destruct e as [err|].
      - assert (fetches evs1 = 1%nat) by (by apply Herr1).
        case_decide; simpl; lia.
      - case_decide as He; [by destruct He|lia]. }
    split.
    { intros req Hreq. apply elem_of_app in Hreq as [Hreq|Hreq].
      - exists c. split; [apply list_elem_of_here|]. by apply Hreq1.
      - destruct (Hreq2 _ Hreq) as (c' & Hc' & ->). exists c'.
        split; [by apply list_elem_of_further|done]. }
    split.
    { rewrite Hdom2, Hdom1. destruct e as [err|].
      - by rewrite union_empty_r_L.
      - by rewrite union_assoc_L. }
    intros Hst. apply Hst2, Hst1, Hst.
Qed.

(** X3 (one fetch per call at most): Serving n calls takes at most n
    fetches and calls [client.Do] at most once for each fetch; every
    call returns, and every call that returns an error has run the
    fetcher. *)
Theorem serve_at_most_one_fetch_per_call tm calls w :
  let out := serve (error := error) tm calls w in
  exists evs,
    trace out.2 = trace w ++ evs /\
    length out.1.1 = length calls /\
    (fetches evs <= length calls)%nat /\
    (length (sent evs) <= fetches evs)%nat /\
    (errors out.1.1 <= fetches evs)%nat.
Proof.
  intros out.
  destruct (serve_account calls tm w) as (evs & H1 & H2 & H3 & H4 & H5 & _).
  exists evs. done.
Qed.

(** X4 (only token requests): Every request that a run of calls hands
    to [client.Do] is the token request of one of the calls: a POST with
    an empty body to that call's endpoint followed by the token path,
    with that call's credentials as its one header. *)
Theorem serve_sends_only_token_requests tm calls w :
  let out := serve (error := error) tm calls w in
  exists evs,
    trace out.2 = trace w ++ evs /\
    forall req, req ∈ sent evs ->
      exists c, c ∈ calls /\ req = tokenRequest c.1.1 c.1.2 c.2 /\
        Method req = "POST" /\ Payload req = "" /\
        URL req = c.2 +:+ "/oauth/token?grant_type=client_credentials".
Proof.
  intros out.
  destruct (serve_account calls tm w) as (evs & H1 & _ & _ & _ & _ & Hreq & _).
  exists evs. split; [done|]. intros req Hin.
  destruct (Hreq _ Hin) as (c & Hc & ->). exists c. done.
Qed.

(** X5 (cached clients): After a run of calls the cache holds the keys
    it held before and the clients of the calls that returned a token,
    no others; from a new manager, exactly the clients that were given a
    token. *)
Theorem serve_caches_served_clients tm calls w :
  let out := serve (error := error) tm calls w in
  dom (tokenCache out.1.2) = dom (tokenCache tm) ∪ clients_served calls out.1.1 /\
  (tm = NewAccessTokenManager ->
   dom (tokenCache out.1.2) = clients_served calls out.1.1).
Proof.
  intros out.
  destruct (serve_account calls tm w) as (evs & _ & _ & _ & _ & _ & _ & Hdom & _).
  split; [done|]. intros ->. fold out in Hdom. rewrite Hdom. simpl.
  by rewrite dom_empty_L, union_empty_l_L.
Qed.

(** X6 (stamped tokens): From a new manager on, every token in the cache
    expires exactly one hour after a reading of the clock recorded in
    the trace, whatever lifetime the server reported. *)
Theorem serve_keeps_tokens_stamped calls w :
  let out := serve (error := error) NewAccessTokenManager calls w in
  forall k token,
    tokenCache out.1.2 !! k = Some token ->
    exists T, EvNow T ∈ trace out.2 /\ ExpiresAt token = T + time.Hour.
Proof.
  intros out.
  destruct (serve_account calls NewAccessTokenManager w)
    as (evs & _ & _ & _ & _ & _ & _ & _ & Hst).
  apply Hst. intros k token Hk. simpl in Hk. by rewrite lookup_empty in Hk.
Qed.

End SerialFacts.

(** * Beyond the contract: response bodies *)

Section BodyFacts.

Context {Ext error Stream : Type} `{P : Platform Ext error Stream}.

Implicit Types (tm : AccessTokenManager) (w : World (Ext * Z)).

Lemma generateAccessToken_open_bodies c secret url w :
  let out := generateAccessToken (P := with_open_bodies P) c secret url w in
  open_bodies out.2 = open_bodies w /\
  (out.1, forget_open_bodies out.2) =
    generateAccessToken (P := P) c secret url (forget_open_bodies w).
Proof.
  unfold generateAccessToken, bind, ret, emit, time_Now, client_Do, ioutil_ReadAll,
    Body_Close, json_Unmarshal, http_NewRequest, open_bodies, forget_open_bodies.
  simpl.
  destruct (env_ParseURL _); [done|]. simpl.
  destruct (env_Do _ _) as [[resp|err] e1]; [|done]. simpl.
  destruct (env_ReadAll _ _) as [[body|err] e2]; simpl; [|split; [lia|done]].
  destruct (env_Unmarshal body); simpl; [|split; [lia|done]].
  destruct (env_Now e2). simpl. split; [lia|done].
Qed.

Lemma cacheLookup_open_bodies tm c w :
  let out := cacheLookup (P := with_open_bodies P) tm c w in
  open_bodies out.2 = open_bodies w /\
  (out.1, forget_open_bodies out.2) =
    cacheLookup (P := P) tm c (forget_open_bodies w).
Proof.
  unfold cacheLookup, bind, ret, time_Now, open_bodies, forget_open_bodies.
  destruct (tokenCache tm !! c); [|done]. simpl.
  by destruct (env_Now _).
Qed.

(** X7 (no open body left): No call leaks a response body. Counting a
    body as open from the moment [client.Do] returns a response until
    [Close] is called on it, every call, whether it is served from the
    cache, fetches, or fails at any point of the fetch, ends with as
    many bodies open as it started with; and the counting changes
    nothing else. *)
Theorem GetAccessToken_closes_every_body tm c secret url w :
  let out := GetAccessToken (P := with_open_bodies P) tm c secret url w in
  open_bodies out.2 = open_bodies w /\
  (out.1, forget_open_bodies out.2) =
    GetAccessToken (P := P) tm c secret url (forget_open_bodies w).
Proof.
  unfold GetAccessToken, bind.
  destruct (cacheLookup_open_bodies tm c w) as [Ho Hl].
  destruct (cacheLookup (P := with_open_bodies P) tm c w) as [hit w0].
  simpl in *. rewrite <- Hl. destruct hit as [token|]; simpl; [done|].
  destruct (generateAccessToken_open_bodies c secret url w0) as [Ho' Hg].
  destruct (generateAccessToken (P := with_open_bodies P) c secret url w0)
    as [r w1].
  simpl in *. rewrite <- Hg. destruct r; unfold ret; simpl; (split; [by rewrite Ho', Ho|done]).
Qed.

End BodyFacts.

(** * Beyond the contract: the Basic credential *)

Section Base64Facts.

Local Open Scope N_scope.

Lemma small_testbit (x n : N) : x < 256 -> 8 <= n -> N.testbit x n = false.
Proof.
  intros Hx Hn. destruct (N.eq_dec x 0) as [->|Hx0]; [apply N.bits_0|].
  apply N.bits_above_log2. apply N.log2_lt_pow2; [lia|].
  apply N.lt_le_trans with (2 ^ 8); [exact Hx|].
  apply N.pow_le_mono_r; lia.
Qed.

Lemma group_value_bit a b c n :
  a < 256 -> b < 256 -> c < 256 ->
  N.testbit (group_value a b c) n =
    if n <? 8 then N.testbit c n
    else if n <? 16 then N.testbit b (n - 8)
    else N.testbit a (n - 16).
Proof.
  intros Ha Hb Hc. unfold group_value. rewrite !N.lor_spec.
  destruct (N.ltb_spec n 8) as [H8|H8].
  - rewrite !N.shiftl_spec_low by lia. reflexivity.
  - rewrite (small_testbit c n) by lia. rewrite orb_false_r.
    destruct (N.ltb_spec n 16) as [H16|H16].
    + rewrite N.shiftl_spec_low by lia. rewrite N.shiftl_spec_high' by lia.
      reflexivity.
    + rewrite !N.shiftl_spec_high' by lia.
      rewrite (small_testbit b (n - 8)) by lia. apply orb_false_r.
Qed.

Lemma group_value_high a b c n :
  a < 256 -> b < 256 -> c < 256 -> 24 <= n ->
  N.testbit (group_value a b c) n = false.
Proof.
  intros Ha Hb Hc Hn. rewrite group_value_bit by done.
  destruct (N.ltb_spec n 8); [lia|]. destruct (N.ltb_spec n 16); [lia|].
  apply small_testbit; lia.
Qed.

Lemma group_value_inj a b c a' b' c' :
  a < 256 -> b < 256 -> c < 256 -> a' < 256 -> b' < 256 -> c' < 256 ->
  group_value a b c = group_value a' b' c' ->
  a = a' /\ b = b' /\ c = c'.
Proof.
  intros Ha Hb Hc Ha' Hb' Hc' H.
  assert (forall n, N.testbit (group_value a b c) n =
                    N.testbit (group_value a' b' c') n) as Hbits
    by (intros n; by rewrite H).
  split; [|split]; apply N.bits_inj; intros n.
  - specialize (Hbits (n + 16)). rewrite !group_value_bit in Hbits by done.
    destruct (N.ltb_spec (n + 16) 8); [lia|].
    destruct (N.ltb_spec (n + 16) 16); [lia|].
    by replace (n + 16 - 16) with n in Hbits by lia.
  - destruct (N.lt_ge_cases n 8) as [Hn|Hn].
    + specialize (Hbits (n + 8)). rewrite !group_value_bit in Hbits by done.
      destruct (N.ltb_spec (n + 8) 8); [lia|].
      destruct (N.ltb_spec (n + 8) 16); [|lia].
      by replace (n + 8 - 8) with n in Hbits by lia.
    + by rewrite !small_testbit.
  - destruct (N.lt_ge_cases n 8) as [Hn|Hn].
    + specialize (Hbits n). rewrite !group_value_bit in Hbits by done.
      by destruct (N.ltb_spec n 8); [|lia].
    + by rewrite !small_testbit.
Qed.

Lemma sextet_bit v k r :
  r < 6 -> N.testbit (N.land (N.shiftr v k) 63) r = N.testbit v (r + k).
Proof.
  intros Hr. rewrite N.land_spec, N.shiftr_spec'.
  change 63 with (N.ones 6). rewrite N.ones_spec_low by done.
  apply andb_true_r.
Qed.

Lemma sextets_inj v v' :
  (forall n, 24 <= n -> N.testbit v n = false) ->
  (forall n, 24 <= n -> N.testbit v' n = false) ->
  N.land (N.shiftr v 18) 63 = N.land (N.shiftr v' 18) 63 ->
  N.land (N.shiftr v 12) 63 = N.land (N.shiftr v' 12) 63 ->
  N.land (N.shiftr v 6) 63 = N.land (N.shiftr v' 6) 63 ->
  N.land (N.shiftr v 0) 63 = N.land (N.shiftr v' 0) 63 ->
  v = v'.
Proof.
  intros Hv Hv' H18 H12 H6 H0. apply N.bits_inj. intros n.
  assert (forall k, N.land (N.shiftr v k) 63 = N.land (N.shiftr v' k) 63 ->
                    k <= n < k + 6 -> N.testbit v n = N.testbit v' n) as Hk.
  { intros k E Hn. replace n with ((n - k) + k) by lia.
    rewrite <- !sextet_bit by lia. by rewrite E. }
  destruct (N.lt_ge_cases n 24) as [Hn|Hn]; [|by rewrite Hv, Hv'].
  destruct (N.lt_ge_cases n 6); [apply (Hk 0); [done|lia]|].
  destruct (N.lt_ge_cases n 12); [apply (Hk 6); [done|lia]|].
  destruct (N.lt_ge_cases n 18); [apply (Hk 12); [done|lia]|].
  apply (Hk 18); [done|lia].
Qed.

Lemma sextet_lt v k : N.land (N.shiftr v k) 63 < 64.
Proof.
  change 63 with (N.ones 6). rewrite N.land_ones. by apply N.mod_lt.
Qed.

(** The table lookup and its inverse, checked on all 64 indices. *)
Lemma table_checked :
  forallb (fun k =>
             match index_of (base64.encode (N.of_nat k)) base64.encodeStd with
             | Some j => (j =? N.of_nat k) && negb (Ascii.eqb (base64.encode (N.of_nat k))
                                                              base64.StdPadding)
             | None => false
             end) (seq 0 64) = true.
Proof. vm_compute. reflexivity. Qed.

Lemma index_of_encode i :
  i < 64 ->
  index_of (base64.encode i) base64.encodeStd = Some i /\
  base64.encode i <> base64.StdPadding.
Proof.
  intros Hi. pose proof table_checked as H.
  rewrite forallb_forall in H. specialize (H (N.to_nat i)).
  rewrite N2Nat.id in H.
  destruct (index_of (base64.encode i) base64.encodeStd) as [j|].
  2:{ discriminate H. apply in_seq. lia. }
  assert (In (N.to_nat i) (seq 0 64)) as Hin by (apply in_seq; lia).
  apply H in Hin. apply andb_prop in Hin as [Hj Hp].
  apply N.eqb_eq in Hj as ->. split; [done|].
  intros E. rewrite E, Ascii.eqb_refl in Hp. discriminate Hp.
Qed.

Lemma encode_inj i j : i < 64 -> j < 64 -> base64.encode i = base64.encode j -> i = j.
Proof.
  intros Hi Hj E. destruct (index_of_encode i Hi) as [Ei _].
  destruct (index_of_encode j Hj) as [Ej _]. congruence.
Qed.

Lemma sextet_char_inj v v' k :
  base64.sextet v k = base64.sextet v' k ->
  N.land (N.shiftr v k) 63 = N.land (N.shiftr v' k) 63.
Proof. apply encode_inj; apply sextet_lt. Qed.

Lemma sextet_not_pad v k : base64.sextet v k <> base64.StdPadding.
Proof. apply index_of_encode, sextet_lt. Qed.

End Base64Facts.

Section EncodeFacts.

(** Induction on a string three bytes at a time, as [Encode] reads it. *)
Lemma string_ind3 (Q : string -> Prop) :
  Q EmptyString ->
  (forall a, Q (String a EmptyString)) ->
  (forall a b, Q (String a (String b EmptyString))) ->
  (forall a b c s, Q s -> Q (String a (String b (String c s)))) ->
  forall s, Q s.
Proof.
  intros H0 H1 H2 H3 s.
  assert (Q s /\ (forall a, Q (String a s)) /\ (forall a b, Q (String a (String b s))))
    as [H _].
  { induction s as [|c s (IH0 & IH1 & IH2)]; [by auto|].
    split; [apply IH1|]. split; [intros a; apply IH2|].
    intros a b. by apply H3. }
  exact H.
Qed.

Lemma EncodeToString_group a b c s :
  base64.EncodeToString (String a (String b (String c s))) =
    let val := group_value (N_of_ascii a) (N_of_ascii b) (N_of_ascii c) in
    String (base64.sextet val 18) (String (base64.sextet val 12)
      (String (base64.sextet val 6) (String (base64.sextet val 0)
         (base64.EncodeToString s)))).
Proof. reflexivity. Qed.

Lemma EncodeToString_two a b :
  base64.EncodeToString (String a (String b EmptyString)) =
    let val := group_value (N_of_ascii a) (N_of_ascii b) 0 in
    String (base64.sextet val 18) (String (base64.sextet val 12)
      (String (base64.sextet val 6) (String base64.StdPadding EmptyString))).
Proof.
  cbn [base64.EncodeToString]. unfold group_value. by rewrite N.lor_0_r.
Qed.

Lemma EncodeToString_one a :
  base64.EncodeToString (String a EmptyString) =
    let val := group_value (N_of_ascii a) 0 0 in
    String (base64.sextet val 18) (String (base64.sextet val 12)
      (String base64.StdPadding (String base64.StdPadding EmptyString))).
Proof.
  cbn [base64.EncodeToString]. unfold group_value.
  by rewrite N.shiftl_0_l, !N.lor_0_r.
Qed.

(** X8 (shape of the encoding): The encoding has Go's [EncodedLen]: four
    characters for every three bytes, the last group padded; and each
    character is one of the 64 of the standard alphabet or the padding
    character. *)
Theorem EncodeToString_shape (src : string) :
  String.length (base64.EncodeToString src) = (4 * ((String.length src + 2) / 3))%nat /\
  Forall (fun ch => ch = base64.StdPadding \/
                    exists i, (i < 64)%nat /\
                              String.get i base64.encodeStd = Some ch)
         (list_ascii_of_string (base64.EncodeToString src)).
Proof.
  assert (forall v k,
            exists i, (i < 64)%nat /\
                      String.get i base64.encodeStd = Some (base64.sextet v k)) as Hchar.
  { intros v k. exists (N.to_nat (N.land (N.shiftr v k) 63)).
    pose proof (sextet_lt v k) as Hlt. split; [lia|].
    destruct (index_of_encode _ Hlt) as [_ Hne].
    unfold base64.sextet, base64.encode in *.
    by destruct (String.get _ base64.encodeStd). }
  induction src as [| a | a b | a b c s [IHl IHc]] using string_ind3.
  - split; [reflexivity|constructor].
  - rewrite EncodeToString_one. split; [reflexivity|].
    cbn [list_ascii_of_string].
    repeat (constructor; [first [by left | right; apply Hchar]|]). constructor.
  - rewrite EncodeToString_two. split; [reflexivity|].
    cbn [list_ascii_of_string].
    repeat (constructor; [first [by left | right; apply Hchar]|]). constructor.
  - rewrite EncodeToString_group. cbn zeta. split.
    + cbn [String.length]. rewrite IHl.
      replace (S (S (S (String.length s))) + 2)%nat
        with (String.length s + 2 + 1 * 3)%nat by lia.
      rewrite Nat.div_add by lia. lia.
    + cbn [list_ascii_of_string].
      repeat (constructor; [right; apply Hchar|]). exact IHc.
Qed.

Lemma N_of_ascii_inj a b : N_of_ascii a = N_of_ascii b -> a = b.
Proof.
  intros H. rewrite <- (ascii_N_embedding a), <- (ascii_N_embedding b). by rewrite H.
Qed.

Lemma sextet_zero v k :
  (forall r, (r < 6)%N -> N.testbit v (r + k) = false) ->
  N.land (N.shiftr v k) 63 = 0%N.
Proof.
  intros H. apply N.bits_inj. intros r. rewrite N.bits_0.
  destruct (N.lt_ge_cases r 6) as [Hr|Hr].
  - rewrite sextet_bit by done. by apply H.
  - rewrite N.land_spec. change 63%N with (N.ones 6).
    rewrite N.ones_spec_high by done. apply andb_false_r.
Qed.

(** Equal characters for a group mean equal bytes. *)
Lemma group_chars_inj a b c a' b' c' :
  (a < 256 -> b < 256 -> c < 256 -> a' < 256 -> b' < 256 -> c' < 256 ->
   base64.sextet (group_value a b c) 18 = base64.sextet (group_value a' b' c') 18 ->
   base64.sextet (group_value a b c) 12 = base64.sextet (group_value a' b' c') 12 ->
   N.land (N.shiftr (group_value a b c) 6) 63 =
     N.land (N.shiftr (group_value a' b' c') 6) 63 ->
   N.land (N.shiftr (group_value a b c) 0) 63 =
     N.land (N.shiftr (group_value a' b' c') 0) 63 ->
   a = a' /\ b = b' /\ c = c')%N.
Proof.
  intros Ha Hb Hc Ha' Hb' Hc' H18 H12 H6 H0.
  apply group_value_inj; try done.
  apply sextets_inj; try done; try (by apply sextet_char_inj);
    intros n Hn; by apply group_value_high.
Qed.

Lemma low_bits_zero a b r k :
  (a < 256 -> b < 256 -> r + k < 8 ->
   N.testbit (group_value a b 0) (r + k) = false)%N.
Proof.
  intros Ha Hb Hr. rewrite group_value_bit by done.
  destruct (N.ltb_spec (r + k) 8)%N; [apply N.bits_0|lia].
Qed.

Lemma mid_bits_zero a r k :
  (a < 256 -> r + k < 16 -> N.testbit (group_value a 0 0) (r + k) = false)%N.
Proof.
  intros Ha Hr. rewrite group_value_bit by done.
  destruct (N.ltb_spec (r + k) 8)%N; [apply N.bits_0|].
  destruct (N.ltb_spec (r + k) 16)%N; [apply N.bits_0|lia].
Qed.

Lemma four_chars_inv c1 c2 c3 c4 r d1 d2 d3 d4 r' :
  String c1 (String c2 (String c3 (String c4 r))) =
  String d1 (String d2 (String d3 (String d4 r'))) ->
  c1 = d1 /\ c2 = d2 /\ c3 = d3 /\ c4 = d4 /\ r = r'.
Proof. intros H. by injection H. Qed.

(** [EncodeToString] loses nothing: different byte strings have
    different encodings. *)
Lemma EncodeToString_inj : forall s1 s2,
  base64.EncodeToString s1 = base64.EncodeToString s2 -> s1 = s2.
Proof.
  intros s1.
  induction s1 as [| a | a b | a b c s IH] using string_ind3;
    intros [|a' [|b' [|c' s']]] H; try done;
    rewrite ?EncodeToString_one, ?EncodeToString_two, ?EncodeToString_group in H;
    cbn zeta in H; try discriminate H;
    apply four_chars_inv in H as (H18 & H12 & H6 & H0 & Hrest);
    try (by destruct (sextet_not_pad _ _ H6));
    try (by destruct (sextet_not_pad _ _ (eq_sym H6)));
    try (by destruct (sextet_not_pad _ _ H0));
    try (by destruct (sextet_not_pad _ _ (eq_sym H0)));
    pose proof (N_ascii_bounded a) as Ha; pose proof (N_ascii_bounded a') as Ha'.
  - (* one byte each *)
    destruct (group_chars_inj (N_of_ascii a) 0 0 (N_of_ascii a') 0 0)
      as (Ea & _ & _); try done.
    + rewrite !sextet_zero; [done|intros r Hr; apply mid_bits_zero; [done|lia]..].
    + rewrite !sextet_zero; [done|intros r Hr; apply mid_bits_zero; [done|lia]..].
    + by rewrite (N_of_ascii_inj _ _ Ea).
  - (* two bytes each *)
    pose proof (N_ascii_bounded b) as Hb; pose proof (N_ascii_bounded b') as Hb'.
    destruct (group_chars_inj (N_of_ascii a) (N_of_ascii b) 0
                              (N_of_ascii a') (N_of_ascii b') 0)
      as (Ea & Eb & _); try done.
    + by apply sextet_char_inj.
    + rewrite !sextet_zero; [done|intros r Hr; apply low_bits_zero; [done..|lia]..].
    + by rewrite (N_of_ascii_inj _ _ Ea), (N_of_ascii_inj _ _ Eb).
  - (* a whole group each *)
    pose proof (N_ascii_bounded b) as Hb; pose proof (N_ascii_bounded b') as Hb'.
    pose proof (N_ascii_bounded c) as Hc; pose proof (N_ascii_bounded c') as Hc'.
    destruct (group_chars_inj (N_of_ascii a) (N_of_ascii b) (N_of_ascii c)
                              (N_of_ascii a') (N_of_ascii b') (N_of_ascii c'))
      as (Ea & Eb & Ec); try done; try (by apply sextet_char_inj).
    rewrite (N_of_ascii_inj _ _ Ea), (N_of_ascii_inj _ _ Eb), (N_of_ascii_inj _ _ Ec).
    by rewrite (IH s' Hrest).
Qed.

End EncodeFacts.

Section CredentialFacts.

Lemma colon_split : forall c1 c2 s1 s2 : string,
  no_colon c1 = true -> no_colon c2 = true ->
  c1 +:+ ":" +:+ s1 = c2 +:+ ":" +:+ s2 ->
  c1 = c2 /\ s1 = s2.
Proof.
  induction c1 as [|x c1 IH]; intros [|y c2] s1 s2 H1 H2 E; simpl in *.
  - by injection E.
  - injection E as <- _. by rewrite Ascii.eqb_refl in H2.
  - injection E as -> _. by rewrite Ascii.eqb_refl in H1.
  - injection E as -> E.
    apply andb_prop in H1 as [_ H1]. apply andb_prop in H2 as [_ H2].
    destruct (IH _ _ _ H1 H2 E) as [-> ->]. done.
Qed.

Lemma append_assoc (a b c : string) : (a +:+ b) +:+ c = a +:+ (b +:+ c).
Proof.
  induction a as [|x a IH]; [done|].
  change (String x ((a +:+ b) +:+ c) = String x (a +:+ (b +:+ c))).
  by rewrite IH.
Qed.

(** X9 (the header and the credentials): The Authorization header
    carries the string clientID:clientSecret and loses nothing of it:
    two fetches with equal headers have equal credential strings, and
    equal identifiers and secrets when the identifiers contain no colon.
    With a colon in the identifier the split is not determined: the
    identifier a:b with secret c and the identifier a with secret b:c
    send the same request. *)
Theorem Authorization_determines_credentials :
  (forall c1 s1 u1 c2 s2 u2,
     Header_Get (Headers (tokenRequest c1 s1 u1)) "Authorization" =
     Header_Get (Headers (tokenRequest c2 s2 u2)) "Authorization" ->
     c1 +:+ ":" +:+ s1 = c2 +:+ ":" +:+ s2 /\
     (no_colon c1 = true -> no_colon c2 = true -> c1 = c2 /\ s1 = s2)) /\
  (forall a b c u,
     tokenRequest (a +:+ ":" +:+ b) c u = tokenRequest a (b +:+ ":" +:+ c) u).
Proof.
  split.
  - intros c1 s1 u1 c2 s2 u2 H.
    change ("Basic " +:+ base64.EncodeToString (c1 +:+ ":" +:+ s1) =
            "Basic " +:+ base64.EncodeToString (c2 +:+ ":" +:+ s2)) in H.
    simpl in H. injection H as H. apply EncodeToString_inj in H.
    split; [done|]. intros H1 H2. by apply colon_split.
  - intros a b c u. unfold tokenRequest.
    by rewrite (append_assoc a (":" +:+ b) (":" +:+ c)).
Qed.

End CredentialFacts.

(** * Beyond the contract: goroutines *)

Section ProgressFacts.

Context {Ext error Stream : Type} `{P : Platform Ext error Stream}.

Import Concurrent.

Implicit Types (s : @State Ext error) (g : @Goroutine error)
  (pl : list (@Goroutine error)).

(** The lock is held only by a goroutine that is inside the call. *)
Lemma thread_step_held i s s' :
  thread_step i s = Some s' ->
  (mutex s = true -> exists j g, pool s !! j = Some g /\ critical g = true) ->
  (mutex s' = true -> exists j g, pool s' !! j = Some g /\ critical g = true).
Proof.
  intros H Hheld. step_cases H i s g; simpl; intros Hlocked;
    exists i; eexists; (split; [by eapply updated|done]).
Qed.

Lemma run_held schedule : forall s s',
  run schedule s = Some s' ->
  (mutex s = true -> exists j g, pool s !! j = Some g /\ critical g = true) ->
  (mutex s' = true -> exists j g, pool s' !! j = Some g /\ critical g = true).
Proof.
  induction schedule as [|i rest IH]; intros s s' H Hheld; simpl in H.
  - by injection H as <-.
  - destruct (thread_step i s) as [s1|] eqn:E; [|discriminate].
    eapply IH; eauto using thread_step_held.
Qed.

(** A goroutine inside the call can always take its next step. *)
Lemma critical_can_step s i g :
  pool s !! i = Some g -> critical g = true -> is_Some (thread_step i s).
Proof.
  intros Hg Cg. unfold thread_step. rewrite Hg. unfold critical in Cg.
  destruct (pc g) as [| | |[newToken|err]|r|r]; try discriminate; try done.
  - by destruct (cacheLookup _ _ _) as [[token|] w1].
  - by destruct (generateAccessToken _ _ _ _) as [r w1].
Qed.

(** X11 (no deadlock): No deadlock: in every state that a burst of calls
    can reach, as long as some call has not returned, some goroutine can
    take a step, the fetch having failed or not; and once all calls have
    returned the lock is free. *)
Theorem calls_never_deadlock tm (w : World Ext) calls schedule
    (s : @State Ext error) :
  run schedule (start tm w calls) = Some s ->
  ((exists i g, pool s !! i = Some g /\ returned g = None) ->
   exists i s', thread_step i s = Some s') /\
  ((forall i g, pool s !! i = Some g -> is_Some (returned g)) -> mutex s = false).
Proof.
  intros Hrun.
  pose proof (run_exclusive _ _ _ Hrun (start_exclusive tm w calls)) as [Hfree _].
  assert (mutex s = true -> exists j g, pool s !! j = Some g /\ critical g = true)
    as Hheld.
  { eapply run_held; [exact Hrun|]. simpl. discriminate. }
  split.
  - intros (i & g & Hg & Hret). destruct (mutex s) eqn:Hm.
    + destruct (Hheld eq_refl) as (j & gj & Hj & Cj).
      destruct (critical_can_step _ _ _ Hj Cj) as [s' Hs']. eauto.
    + pose proof (Hfree eq_refl _ _ Hg) as Cg. exists i.
      unfold thread_step. rewrite Hg, Hm.
      unfold critical in Cg. unfold returned in Hret.
      destruct (pc g); try discriminate. eauto.
  - intros Hall. destruct (mutex s) eqn:Hm; [|done].
    destruct (Hheld eq_refl) as (j & gj & Hj & Cj).
    destruct (Hall _ _ Hj) as [r Hr]. unfold returned in Hr. unfold critical in Cj.
    destruct (pc gj); discriminate.
Qed.

Lemma work_update pl i g p :
  pl !! i = Some g ->
  (work (<[i := goto g p]> pl) + remaining (pc g) = work pl + remaining p)%nat.
Proof.
  unfold work. revert i. induction pl as [|g0 pl IH]; intros [|i] Hi; simpl in *;
    try discriminate.
  - injection Hi as ->.
    generalize (sum_list (list_fmap _ _ (fun g0 => remaining (pc g0)) pl)).
    generalize (remaining (pc g)), (remaining p). intros; lia.
  - specialize (IH _ Hi). unfold fmap in IH. revert IH.
    generalize (sum_list (list_fmap _ _ (fun g1 => remaining (pc g1))
                                    (<[i:=goto g p]> pl))).
    generalize (sum_list (list_fmap _ _ (fun g1 => remaining (pc g1)) pl)).
    generalize (remaining (pc g)), (remaining p), (remaining (pc g0)). intros; lia.
Qed.

(** Every statement brings its goroutine closer to the return. *)
Lemma thread_step_work i s s' :
  thread_step i s = Some s' -> (work (pool s') < work (pool s))%nat.
Proof.
  intros H. step_cases H i s g; simpl;
    match goal with
    | Hg : pool s !! i = Some ?g0 |- context [<[i := goto ?g0 ?p]> (pool s)] =>
        pose proof (work_update (pool s) i g0 p Hg) as Hw
    end; rewrite Hpc in Hw; simpl in Hw; lia.
Qed.

Lemma work_start tm (w : World Ext) calls :
  work (pool (start (error := error) tm w calls)) = (5 * length calls)%nat.
Proof.
  unfold work. simpl. induction calls as [|c calls IH]; [done|].
  rewrite !fmap_cons. simpl. rewrite IH. lia.
Qed.

(** X12 (bounded steps): No goroutine loops or retries: whatever the
    schedule, the steps taken so far and the statements the goroutines
    still have before them add up to at most five for each call, so a
    burst of n calls is over after at most 5 n steps. *)
Theorem calls_take_at_most_five_steps tm (w : World Ext) calls schedule
    (s : @State Ext error) :
  run schedule (start tm w calls) = Some s ->
  (length schedule + work (pool s) <= 5 * length calls)%nat /\
  (length schedule <= 5 * length calls)%nat.
Proof.
  intros Hrun.
  pose proof (work_start tm w calls) as H0.
  assert (forall sched s0 s1, run sched s0 = Some s1 ->
            (length sched + work (pool s1) <= work (pool s0))%nat) as Hle.
  { induction sched as [|i rest IH]; intros s0 s1 H; simpl in H.
    - injection H as <-. simpl. lia.
    - destruct (thread_step i s0) as [s2|] eqn:E; [|discriminate].
      pose proof (thread_step_work _ _ _ E). specialize (IH _ _ H). simpl. lia. }
  specialize (Hle _ _ _ Hrun). rewrite H0 in Hle. lia.
Qed.

Lemma start_linearized tm (w : World Ext) calls :
  linearized tm w (start (error := error) tm w calls) [].
Proof.
  exists [], [], tm, w. simpl.
  split; [apply NoDup_nil_2|]. split.
  { intros i g Hi. apply list_lookup_fmap_Some in Hi as (c & -> & _).
    simpl. by intros [? ?]. }
  split; [constructor|]. split; [constructor|]. split; [done|].
  split; [|done].
  intros i g Hi. apply list_lookup_fmap_Some in Hi as (c & -> & _). done.
Qed.

(** X13 (fetches of concurrent calls): What holds of calls served one
    after the other holds of concurrent calls: a complete execution of n
    concurrent calls makes at most n fetches, calls [client.Do] at most
    once for each fetch, and every request it hands to [client.Do] is
    the token request of one of the calls. *)
Theorem concurrent_calls_fetch_at_most_once_each tm (w : World Ext) calls schedule
    (s : @State Ext error) :
  run schedule (start tm w calls) = Some s ->
  (forall i g, pool s !! i = Some g -> is_Some (returned g)) ->
  exists evs,
    trace (world s) = trace w ++ evs /\
    (fetches evs <= length calls)%nat /\
    (length (sent evs) <= fetches evs)%nat /\
    forall req, req ∈ sent evs ->
      exists c, c ∈ calls /\ req = tokenRequest c.1.1 c.1.2 c.2.
Proof.
  intros Hrun Hall.
  destruct (run_linearized _ _ _ _ _ _ Hrun (start_exclusive tm w calls)
              (start_linearized tm w calls))
    as (order & ordered & rs & tmk & wk & Hnd & _ & Hargs & _ & Hserve & _ & Hidle).
  destruct Hidle as [<- <-].
  { intros i g Hi. destruct (Hall _ _ Hi) as [r Hr]. unfold returned in Hr.
    by destruct (pc g). }
  assert (forall j g, pool s !! j = Some g -> calls !! j = Some (args g)) as Hcalls.
  { eapply run_args; [exact Hrun|]. simpl. intros j g Hj.
    apply list_lookup_fmap_Some in Hj as (c & -> & Hc).
    by destruct c as [[c1 c2] c3]. }
  assert (length ordered <= length calls)%nat as Hlen.
  { rewrite <- (Forall2_length _ _ _ Hargs).
    trans (length (seq 0 (length calls))); [|by rewrite length_seq].
    apply submseteq_length, NoDup_submseteq; [done|].
    intros i Hi. apply elem_of_seq.
    apply list_elem_of_lookup_1 in Hi as (k & Hk).
    destruct (Forall2_lookup_l _ _ _ _ _ Hargs Hk) as (c & _ & g & Hg & _).
    apply Hcalls, lookup_lt_Some in Hg. lia. }
  destruct (serve_account (error := error) ordered tm w)
    as (evs & Htr & _ & Hf & Hs & _ & Hreq & _).
  rewrite Hserve in Htr. simpl in *.
  exists evs. split; [done|]. split; [lia|]. split; [done|].
  intros req Hin. destruct (Hreq _ Hin) as (c & Hc & ->). exists c. split; [|done].
  apply list_elem_of_lookup_1 in Hc as (k & Hk).
  destruct (Forall2_lookup_r _ _ _ _ _ Hargs Hk) as (i & _ & g & Hg & <-).
  eapply list_elem_of_lookup_2. by apply Hcalls.
Qed.

End ProgressFacts.

(** * The theorems at work in the concrete world *)

Lemma GetAccessToken_cache_hit_witness :
  exists w',
    GetAccessToken (Demo.cached "id" (Demo.credential 1005)) "id" "secret" "https://uaa"
      (Demo.world 2000 []) =
      (("abc123", None, Demo.cached "id" (Demo.credential 1005)), w') /\
    trace w' = [EvNow 2000] /\
    fetches (trace w') = 0%nat /\
    sent (trace w') = [].
Proof.
  refine (GetAccessToken_cache_hit (Demo.cached "id" (Demo.credential 1005))
           "id" "secret" "https://uaa" (Demo.world 2000 []) (Demo.credential 1005) _ _).
  - vm_compute. reflexivity.
  - vm_compute. reflexivity.
Defined.

Lemma GetAccessToken_one_hour_window_witness :
  let w := Demo.world 1000 [Demo.ok_abc123] in
  let w1 := (generateAccessToken "id" "secret" "https://uaa" w).2 in
  exists T tm1,
    trace w1 = trace w ++ [EvFetch "id" "secret" "https://uaa";
                           EvSend (tokenRequest "id" "secret" "https://uaa");
                           EvNow T] /\
    GetAccessToken NewAccessTokenManager "id" "secret" "https://uaa" w =
      (("abc123", None, tm1), w1) /\
    tokenCache tm1 !! "id" = Some (Demo.credential 1005) /\
    1005 + time.Hour = T + time.Hour /\
    time.Hour = 3600 * 1000000000 /\
    (forall f : Z -> Z,
       GetAccessToken (P := with_expires_in f Demo.platform)
         NewAccessTokenManager "id" "secret" "https://uaa" w =
         (("abc123", None, tm1), w1)) /\
    (forall tm2 clientSecret2 uaaUrl2 w2,
       tokenCache tm2 !! "id" = Some (Demo.credential 1005) ->
       let t := (env_Now (ext w2)).1 in
       let out := GetAccessToken tm2 "id" clientSecret2 uaaUrl2 w2 in
       (t < T + time.Hour ->
          out.1 = ("abc123", None, tm2) /\
          fetches (trace out.2) = fetches (trace w2)) /\
       (T + time.Hour <= t ->
          fetches (trace out.2) = S (fetches (trace w2)))).
Proof.
  intros w w1.
  refine (GetAccessToken_one_hour_window NewAccessTokenManager
           "id" "secret" "https://uaa" w w (Demo.credential 1005) w1 _ _).
  - vm_compute. reflexivity.
  - vm_compute. reflexivity.
Defined.

Lemma GetAccessToken_fetch_error_keeps_cache_witness :
  let tm := Demo.cached "id" Demo.old_credential in
  let w := Demo.world 1000 [(5, Demo.Refused)] in
  let w0 := (cacheLookup tm "id" w).2 in
  let w' := (generateAccessToken "id" "secret" "https://uaa" w0).2 in
  exists v tm',
    GetAccessToken tm "id" "secret" "https://uaa" w =
      ((v, Some "connection refused", tm'), w') /\
    tm' = tm /\
    tokenCache tm' = tokenCache tm /\
    tokenCache tm' !! "id" = tokenCache tm !! "id".
Proof.
  intros tm w w0 w'.
  refine (GetAccessToken_fetch_error_keeps_cache tm "id" "secret" "https://uaa" w w0
           "connection refused" w' _ _).
  - vm_compute. reflexivity.
  - vm_compute. reflexivity.
Defined.

Lemma GetAccessToken_miss_fetches_once_witness :
  let tm := Demo.cached "id" Demo.old_credential in
  let w := Demo.world 1000 [Demo.ok_abc123] in
  exists w0 r w',
    cacheLookup tm "id" w = (None, w0) /\
    generateAccessToken "id" "secret" "https://uaa" w0 = (r, w') /\
    (GetAccessToken tm "id" "secret" "https://uaa" w).2 = w' /\
    fetches (trace w') = S (fetches (trace w)) /\
    forall newToken, r = Ok newToken ->
      exists tm',
        GetAccessToken tm "id" "secret" "https://uaa" w =
          ((Value newToken, None, tm'), w') /\
        tokenCache tm' = <["id" := newToken]> (tokenCache tm) /\
        tokenCache tm' !! "id" = Some newToken.
Proof.
  intros tm w.
  refine (GetAccessToken_miss_fetches_once tm "id" "secret" "https://uaa" w _).
  right. exists Demo.old_credential. split.
  - vm_compute. reflexivity.
  - vm_compute. intros H. discriminate H.
Defined.

Lemma GetAccessToken_error_value_empty_witness :
  let tm := Demo.cached "id" Demo.old_credential in
  let w := Demo.world 1000 [(5, Demo.Refused)] in
  let w0 := (cacheLookup tm "id" w).2 in
  let w' := (generateAccessToken "id" "secret" "https://uaa" w0).2 in
  GetAccessToken tm "id" "secret" "https://uaa" w =
    (("", Some "connection refused", tm), w') /\
  (GetAccessToken tm "id" "secret" "https://uaa" w).1.1.1 = "" /\
  (GetAccessToken tm "id" "secret" "https://uaa" w).1.1.2 = Some "connection refused".
Proof.
  intros tm w w0 w'.
  refine (GetAccessToken_error_value_empty tm "id" "secret" "https://uaa" w w0
            "connection refused" w' _ _).
  - vm_compute. reflexivity.
  - vm_compute. reflexivity.
Defined.

Lemma generateAccessToken_request_witness :
  exists req evs,
    trace (generateAccessToken "id" "secret" "https://uaa"
             (Demo.world 1000 [Demo.ok_abc123])).2 = [] ++ evs /\
    EvSend req ∈ evs /\
    Method req = "POST" /\
    URL req = "https://uaa/oauth/token?grant_type=client_credentials" /\
    Payload req = "" /\
    Header_Get (Headers req) "Authorization" = "Basic aWQ6c2VjcmV0".
Proof.
  refine (generateAccessToken_request (P := Demo.platform) "id" "secret" "https://uaa"
            (Demo.world 1000 [Demo.ok_abc123]) _).
  vm_compute. reflexivity.
Defined.

Lemma GetAccessToken_never_deletes_witness :
  let tm := Demo.cached "other" Demo.old_credential in
  let tm' := (GetAccessToken tm "id" "secret" "https://uaa"
                (Demo.world 1000 [Demo.ok_abc123])).1.2 in
  tokenCache tm' !! "other" = tokenCache tm !! "other" /\
  is_Some (tokenCache tm' !! "other").
Proof.
  intros tm tm'.
  destruct (proj1 (GetAccessToken_never_deletes (P := Demo.platform))
              tm "id" "secret" "https://uaa" (Demo.world 1000 [Demo.ok_abc123]))
    as [Hframe Hkeep].
  split.
  - apply Hframe. intros H. discriminate H.
  - apply Hkeep. exists Demo.old_credential. vm_compute. reflexivity.
Defined.

Lemma generateAccessToken_ignores_status_witness :
  let w := Demo.world 1000 [(5, Demo.Answer 401 (Ok Demo.body_no_token))] in
  (exists token w',
     generateAccessToken "id" "secret" "https://uaa" w = (Ok token, w') /\
     Value token = "") /\
  (forall f : Z -> Z,
     generateAccessToken (P := with_status f Demo.platform) "id" "secret" "https://uaa" w =
     generateAccessToken "id" "secret" "https://uaa" w).
Proof.
  intros w.
  destruct (generateAccessToken_ignores_status (P := Demo.platform)
              "id" "secret" "https://uaa" w
              (mkResponse 401 (Ok Demo.body_no_token))
              {| Demo.clock := 1005; Demo.script := [] |}
              Demo.body_no_token
              {| Demo.clock := 1005; Demo.script := [] |}
              (AccessTokenResponse.mk "" "" 0 "" ""))
    as (Hok & Hstatus & _).
  - vm_compute. reflexivity.
  - vm_compute. reflexivity.
  - vm_compute. reflexivity.
  - vm_compute. reflexivity.
  - split; [exact Hok | exact Hstatus].
Defined.

Lemma GetAccessToken_caches_empty_token_witness :
  let w := Demo.world 1000 [(5, Demo.Answer 401 (Ok Demo.body_no_token))] in
  let empty := {| Value := ""; ExpiresAt := 1005 + time.Hour |} in
  exists tm1 w1,
    GetAccessToken NewAccessTokenManager "id" "secret" "https://uaa" w =
      (("", None, tm1), w1) /\
    tokenCache tm1 = <["id" := empty]> (tokenCache NewAccessTokenManager) /\
    forall tm2 clientSecret2 uaaUrl2 w2,
      calls_before "id" (1005 + time.Hour) tm1 tm2 ->
      (env_Now (ext w2)).1 < 1005 + time.Hour ->
      exists w3,
        GetAccessToken tm2 "id" clientSecret2 uaaUrl2 w2 = (("", None, tm2), w3) /\
        fetches (trace w3) = fetches (trace w2) /\
        sent (trace w3) = sent (trace w2).
Proof.
  intros w empty.
  refine (GetAccessToken_caches_empty_token (P := Demo.platform)
           NewAccessTokenManager "id" "secret" "https://uaa" w w
           (mkResponse 401 (Ok Demo.body_no_token))
           {| Demo.clock := 1005; Demo.script := [] |}
           Demo.body_no_token
           {| Demo.clock := 1005; Demo.script := [] |}
           (AccessTokenResponse.mk "" "" 0 "" "") _ _ _ _ _ _).
  - vm_compute. reflexivity.
  - vm_compute. reflexivity.
  - vm_compute. reflexivity.
  - vm_compute. reflexivity.
  - vm_compute. reflexivity.
  - reflexivity.
Defined.

(** The fetch is handed a URL that [http.NewRequest] rejects: it returns
    the error of line 69 and [client.Do] is never called: no request is
    issued. *)
Lemma generateAccessToken_bad_url_sends_nothing :
  let out := generateAccessToken "id" "secret" Demo.bad_url
               (Demo.world 1000 [Demo.ok_abc123]) in
  out.1 = Err "net/url: invalid control character in URL" /\
  sent (trace out.2) = [] /\
  ~ exists req, EvSend req ∈ trace out.2.
Proof.
  vm_compute. split; [reflexivity|]. split; [reflexivity|].
  intros (req & Hreq). apply list_elem_of_singleton in Hreq. discriminate Hreq.
Qed.

(** Two goroutines ask for the same expired client; the first fetch is
    refused.  Each of them fetches, one after the other. *)
Lemma burst_with_failed_fetch_fetches_twice :
  exists s,
    Concurrent.run [0; 0; 0; 0; 0; 1; 1; 1; 1; 1]%nat
      (Concurrent.start (Demo.cached "id" Demo.old_credential)
         (Demo.world 1000 [(5, Demo.Refused); Demo.ok_abc123])
         [Demo.the_call; Demo.the_call]) = Some s /\
    Concurrent.pc <$> Concurrent.pool s =
      [Concurrent.Done ("", Some "connection refused");
       Concurrent.Done ("abc123", None)] /\
    fetches (trace (Concurrent.world s)) = 2%nat /\
    length (sent (trace (Concurrent.world s))) = 2%nat.
Proof.
  eexists. split; [vm_compute; reflexivity|]. vm_compute. auto.
Qed.

Lemma fetches_are_serialized_witness :
  exists s,
    Concurrent.run [0; 0; 0; 0; 0; 1; 1; 1]%nat
      (Concurrent.start (Demo.cached "id" Demo.old_credential)
         (Demo.world 1000 [Demo.ok_abc123])
         [Demo.the_call; Demo.the_call]) = Some s /\
    fetches (trace (Concurrent.world s)) = 1%nat /\
    exists token,
      tokenCache (Concurrent.manager s) !! "id" = Some token /\
      forall i g, Concurrent.pool s !! i = Some g ->
                  Concurrent.pc g = Concurrent.Done (Value token, None).
Proof.
  eexists. split; [vm_compute; reflexivity|].
  apply (proj2 (fetches_are_serialized (P := Demo.platform))
           (Demo.cached "id" Demo.old_credential)
           {| Demo.clock := 1000; Demo.script := [Demo.ok_abc123] |}
           [Demo.the_call; Demo.the_call]
           [0; 0; 0; 0; 0; 1; 1; 1]%nat _ "id" 1000).
  - intros H. discriminate H.
  - intros c Hc. apply elem_of_cons in Hc as [->|Hc]; [reflexivity|].
    apply list_elem_of_singleton in Hc as ->. reflexivity.
  - vm_compute. intros H. discriminate H.
  - vm_compute. reflexivity.
  - simpl. intros t Ht.
    apply elem_of_cons in Ht as [Ht|Ht]; [injection Ht as ->; vm_compute; split; [intros H; discriminate H|reflexivity]|].
    apply elem_of_cons in Ht as [Ht|Ht]; [discriminate Ht|].
    apply elem_of_cons in Ht as [Ht|Ht]; [discriminate Ht|].
    apply elem_of_cons in Ht as [Ht|Ht]; [injection Ht as ->; vm_compute; split; [intros H; discriminate H|reflexivity]|].
    apply elem_of_cons in Ht as [Ht|Ht]; [injection Ht as ->; vm_compute; split; [intros H; discriminate H|reflexivity]|].
    apply elem_of_nil in Ht. destruct Ht.
  - simpl. intros i g Hg. destruct i as [|[|i]]; simpl in Hg.
    + injection Hg as <-. eexists. reflexivity.
    + injection Hg as <-. eexists. reflexivity.
    + discriminate Hg.
Defined.

(** * The further theorems at work in the concrete world *)

Lemma GetAccessToken_returns_live_entry_witness :
  let out := GetAccessToken NewAccessTokenManager "id" "secret" "https://uaa"
               (Demo.world 1000 [Demo.ok_abc123]) in
  exists token t pre,
    tokenCache out.1.2 !! "id" = Some token /\
    Value token = out.1.1.1 /\
    trace out.2 = pre ++ [EvNow t] /\
    t < ExpiresAt token.
Proof.
  intros out.
  refine (GetAccessToken_returns_live_entry NewAccessTokenManager
            "id" "secret" "https://uaa" (Demo.world 1000 [Demo.ok_abc123])
            out.1.1.1 out.1.2 out.2 _).
  vm_compute. reflexivity.
Defined.

Lemma GetAccessToken_ignores_secret_on_hit_witness :
  let out := GetAccessToken NewAccessTokenManager "id" "secret" "https://uaa"
               (Demo.world 1000 [Demo.ok_abc123]) in
  exists token,
    tokenCache out.1.2 !! "id" = Some token /\
    forall secret2 url2 w2,
      (env_Now (ext w2)).1 < ExpiresAt token ->
      let out2 := GetAccessToken out.1.2 "id" secret2 url2 w2 in
      out2.1 = (out.1.1.1, None, out.1.2) /\
      sent (trace out2.2) = sent (trace w2) /\
      fetches (trace out2.2) = fetches (trace w2).
Proof.
  intros out.
  refine (GetAccessToken_ignores_secret_on_hit NewAccessTokenManager
            "id" "secret" "https://uaa" (Demo.world 1000 [Demo.ok_abc123])
            out.1.1.1 out.1.2 out.2 _).
  vm_compute. reflexivity.
Defined.

Lemma serve_sends_only_token_requests_witness :
  let calls := [Demo.the_call; ("other", "secret", "https://uaa")] in
  exists c, c ∈ calls /\
    tokenRequest "other" "secret" "https://uaa" = tokenRequest c.1.1 c.1.2 c.2 /\
    Method (tokenRequest "other" "secret" "https://uaa") = "POST" /\
    Payload (tokenRequest "other" "secret" "https://uaa") = "" /\
    URL (tokenRequest "other" "secret" "https://uaa") =
      c.2 +:+ "/oauth/token?grant_type=client_credentials".
Proof.
  intros calls.
  destruct (serve_sends_only_token_requests (error := string) NewAccessTokenManager calls
              (Demo.world 1000 [Demo.ok_abc123; Demo.ok_abc123]))
    as (evs & Htr & Hreq).
  apply Hreq. simpl in Htr. rewrite <- Htr. vm_compute.
  do 1 apply list_elem_of_further. apply list_elem_of_here.
Defined.

Lemma serve_caches_served_clients_witness :
  let out := Concurrent.serve (error := string) NewAccessTokenManager
               [Demo.the_call; ("other", "secret", "https://uaa")]
               (Demo.world 1000 [Demo.ok_abc123; (5, Demo.Refused)]) in
  dom (tokenCache out.1.2) =
    clients_served [Demo.the_call; ("other", "secret", "https://uaa")] out.1.1.
Proof.
  intros out.
  exact (proj2 (serve_caches_served_clients (error := string) NewAccessTokenManager
                  [Demo.the_call; ("other", "secret", "https://uaa")]
                  (Demo.world 1000 [Demo.ok_abc123; (5, Demo.Refused)])) eq_refl).
Defined.

Lemma serve_keeps_tokens_stamped_witness :
  let out := Concurrent.serve (error := string) NewAccessTokenManager [Demo.the_call]
               (Demo.world 1000 [Demo.ok_abc123]) in
  exists T, EvNow T ∈ trace out.2 /\
            ExpiresAt (Demo.credential 1005) = T + time.Hour.
Proof.
  intros out.
  refine (serve_keeps_tokens_stamped (error := string) [Demo.the_call]
            (Demo.world 1000 [Demo.ok_abc123]) "id" (Demo.credential 1005) _).
  vm_compute. reflexivity.
Defined.

Lemma Authorization_determines_credentials_witness :
  "id" +:+ ":" +:+ "secret" = "id" +:+ ":" +:+ "secret" /\
  (no_colon "id" = true -> no_colon "id" = true -> "id" = "id" /\ "secret" = "secret").
Proof.
  refine (proj1 Authorization_determines_credentials
            "id" "secret" "https://uaa" "id" "secret" "https://other" _).
  reflexivity.
Defined.

Lemma executions_are_serial_witness :
  exists s,
    Concurrent.run [1; 1; 1; 1; 1; 0; 0; 0]%nat
      (Concurrent.start NewAccessTokenManager (Demo.world 1000 [Demo.ok_abc123])
         [Demo.the_call; Demo.the_call]) = Some s /\
    exists order ordered rs,
      order ≡ₚ seq 0 2 /\
      Forall2 (fun i c => [Demo.the_call; Demo.the_call] !! i = Some c) order ordered /\
      Concurrent.serve NewAccessTokenManager ordered (Demo.world 1000 [Demo.ok_abc123]) =
        ((rs, Concurrent.manager s), Concurrent.world s) /\
      Forall2 (fun i r => exists g, Concurrent.pool s !! i = Some g /\
                                    Concurrent.pc g = Concurrent.Done r) order rs.
Proof.
  eexists. split; [vm_compute; reflexivity|].
  refine (executions_are_serial (P := Demo.platform) NewAccessTokenManager
            (Demo.world 1000 [Demo.ok_abc123]) [Demo.the_call; Demo.the_call]
            [1; 1; 1; 1; 1; 0; 0; 0]%nat _ _ _).
  - vm_compute. reflexivity.
  - simpl. intros i g Hg. destruct i as [|[|i]]; simpl in Hg.
    + injection Hg as <-. eexists. reflexivity.
    + injection Hg as <-. eexists. reflexivity.
    + discriminate Hg.
Defined.

Lemma calls_never_deadlock_witness :
  exists s,
    Concurrent.run [0; 0]%nat
      (Concurrent.start NewAccessTokenManager (Demo.world 1000 [Demo.ok_abc123])
         [Demo.the_call; Demo.the_call]) = Some s /\
    exists i s', Concurrent.thread_step i s = Some s'.
Proof.
  eexists. split; [vm_compute; reflexivity|].
  refine (proj1 (calls_never_deadlock (P := Demo.platform) NewAccessTokenManager
                   (Demo.world 1000 [Demo.ok_abc123]) [Demo.the_call; Demo.the_call]
                   [0; 0]%nat _ _) _).
  - vm_compute. reflexivity.
  - exists 1%nat. eexists. split; reflexivity.
Defined.

Lemma calls_take_at_most_five_steps_witness :
  exists s,
    Concurrent.run [0; 0; 0]%nat
      (Concurrent.start NewAccessTokenManager (Demo.world 1000 [Demo.ok_abc123])
         [Demo.the_call; Demo.the_call]) = Some s /\
    (3 + work (Concurrent.pool s) <= 10)%nat /\ (3 <= 10)%nat.
Proof.
  eexists. split; [vm_compute; reflexivity|].
  refine (calls_take_at_most_five_steps (P := Demo.platform) NewAccessTokenManager
            (Demo.world 1000 [Demo.ok_abc123]) [Demo.the_call; Demo.the_call]
            [0; 0; 0]%nat _ _).
  vm_compute. reflexivity.
Defined.

Lemma concurrent_calls_fetch_at_most_once_each_witness :
  exists s,
    Concurrent.run [1; 1; 1; 1; 1; 0; 0; 0]%nat
      (Concurrent.start NewAccessTokenManager (Demo.world 1000 [Demo.ok_abc123])
         [Demo.the_call; Demo.the_call]) = Some s /\
    exists evs,
      trace (Concurrent.world s) = [] ++ evs /\
      (fetches evs <= 2)%nat /\
      (length (sent evs) <= fetches evs)%nat /\
      forall req, req ∈ sent evs ->
        exists c, c ∈ [Demo.the_call; Demo.the_call] /\
                  req = tokenRequest c.1.1 c.1.2 c.2.
Proof.
  eexists. split; [vm_compute; reflexivity|].
  refine (concurrent_calls_fetch_at_most_once_each (P := Demo.platform)
            NewAccessTokenManager
            (Demo.world 1000 [Demo.ok_abc123]) [Demo.the_call; Demo.the_call]
            [1; 1; 1; 1; 1; 0; 0; 0]%nat _ _ _).
  - vm_compute. reflexivity.
  - simpl. intros i g Hg. destruct i as [|[|i]]; simpl in Hg.
    + injection Hg as <-. eexists. reflexivity.
    + injection Hg as <-. eexists. reflexivity.
    + discriminate Hg.
Defined.

Lemma generateAccessToken_fails_fast_witness :
  let out := generateAccessToken "id" "secret" Demo.bad_url
               (Demo.world 1000 [Demo.ok_abc123]) in
  exists evs,
    trace out.2 = [] ++ evs /\
    (forall t, EvNow t ∉ evs) /\
    (length (sent evs) <= 1)%nat /\
    (forall e,
       env_ParseURL (Demo.bad_url +:+ "/oauth/token?grant_type=client_credentials") =
         Some e ->
       "net/url: invalid control character in URL" = e /\
       ext out.2 = ext (Demo.world 1000 [Demo.ok_abc123]) /\ sent evs = []).
Proof.
  intros out.
  refine (generateAccessToken_fails_fast (P := Demo.platform) "id" "secret" Demo.bad_url
            (Demo.world 1000 [Demo.ok_abc123])
            "net/url: invalid control character in URL" out.2 _).
  vm_compute. reflexivity.
Defined.
